(** * rivers: context tree and stream

    A shallow embedding of [context/context.go] and [stream/stream.go].

    The Go heap is an explicit store: standard-library contexts, tree
    contexts and channels live in lists and are referred to by index, so that
    the aliasing between a Reader, a Writer and the contexts they share is the
    aliasing of the program.  Go's nullable [error] is [option error].

    stream.go is written against the package [ctxtree], which is not in
    the repository: it hands a cause to [ctx.Close(err)] and returns
    [ctx.Err()].  context.go, package [context], is the context tree of the
    repository; its [Close] takes no cause and its [Err()] is that of the
    standard context under the node.  The [Close(cause)] and [Err()] of the
    context a stream is bound to are modelled from the spec, in module
    [bound]; the tree itself, [Done], [Config] and [NewChild] are those of
    context.go. *)

From Stdlib Require Import ZArith String.
From stdpp Require Import base list.

Open Scope Z_scope.
Open Scope list_scope.

(** ** Errors and data *)

(** The two sentinel errors of Go's "context" package, and any other error a
    stage may hand over. *)
Inductive error : Type :=
  | Canceled
  | DeadlineExceeded
  | Failure (msg : String.string).

(** [type T interface{}]: the values flowing through a stream. *)
Inductive T : Type :=
  | IntVal (z : Z)
  | StrVal (s : String.string)
  | NilVal.

(** ** The standard "context" package, as far as context.go relies on it *)

Module std.

(** A cancellable context derived by [WithCancel] or [WithDeadline].
    [parent = None] stands for a context derived from [Background()].
    [deadline] is the effective deadline (own or inherited), in
    nanoseconds on the clock of the store. *)
Record ctx : Type := mk {
  parent : option nat;
  err : option error;
  deadline : option Z
}.

(** A context handle: [None] is [Background()]. *)
Definition ref : Type := option nat.

Definition set_err (e : error) (c : ctx) : ctx :=
  {| parent := parent c; err := Some e; deadline := deadline c |}.

Definition is_done (c : ctx) : bool :=
  match err c with Some _ => true | None => false end.

(** [<-r.Done()] is ready. [Background] is never done. *)
Definition Done (cs : list ctx) (r : ref) : bool :=
  match r with
  | None => false
  | Some i => match cs !! i with Some c => is_done c | None => false end
  end.

Definition Err (cs : list ctx) (r : ref) : option error :=
  match r with
  | None => None
  | Some i => match cs !! i with Some c => err c | None => None end
  end.

Definition Deadline (cs : list ctx) (r : ref) : option Z :=
  match r with
  | None => None
  | Some i => match cs !! i with Some c => deadline c | None => None end
  end.

(** [WithCancel(r)]: the new context sits at index [length cs]; it is born
    done when [r] is already done, and inherits the deadline of [r]. *)
Definition WithCancel (r : ref) (cs : list ctx) : nat * list ctx :=
  (length cs,
   cs ++ [ {| parent := r; err := Err cs r; deadline := Deadline cs r |} ]).

Definition min_deadline (d : Z) (o : option Z) : Z :=
  match o with Some d' => Z.min d d' | None => d end.

(** [WithDeadline(r, d)] at clock [now]. *)
Definition WithDeadline (now : Z) (r : ref) (d : Z) (cs : list ctx)
  : nat * list ctx :=
  let d' := min_deadline d (Deadline cs r) in
  let e := match Err cs r with
           | Some e => Some e
           | None => if d' <=? now then Some DeadlineExceeded else None
           end in
  (length cs, cs ++ [ {| parent := r; err := e; deadline := Some d' |} ]).

(** [descends fuel cs a i]: context [i] is [a] or derived from it. *)
Fixpoint descends (fuel : nat) (cs : list ctx) (a i : nat) : bool :=
  if decide (i = a) then true
  else match fuel with
       | O => false
       | S f =>
         match cs !! i with
         | Some c =>
           match parent c with
           | Some p => descends f cs a p
           | None => false
           end
         | None => false
         end
       end.

(** The cancel function of context [a] with error [e]: the first error
    sticks, and every context derived from [a] that is still open is
    cancelled with it. *)
Definition cancel (e : error) (a : nat) (cs : list ctx) : list ctx :=
  imap (fun i c =>
          if descends (length cs) cs a i && negb (is_done c)
          then set_err e c else c) cs.

(** The timers: at clock [now] every open context whose deadline has
    passed is cancelled with [DeadlineExceeded]. *)
Definition expire (now : Z) (cs : list ctx) : list ctx :=
  (fun c =>
     match deadline c with
     | Some d => if (d <=? now) && negb (is_done c)
                 then set_err DeadlineExceeded c else c
     | None => c
     end) <$> cs.

End std.

(** ** The heap: context.go's structs, channels, and the store *)

(** [Timeout] is a [time.Duration] (nanoseconds), [BufferSize] an [int]. *)
Record Config : Type := mkConfig {
  Timeout : Z;
  BufferSize : Z
}.

(** The value the package variable [DefaultConfig] is declared with. *)
Definition initial_config : Config :=
  {| Timeout := 5 * 1000000000; BufferSize := 1000 |}.

(** The [cancel] field of a node is one of two closures: the function
    returned by [WithCancel] (a root), or [cancelWithPropagation], which
    captures that function and the parent node. *)
Inductive CancelFunc : Type :=
  | stdCancel (c : nat)
  | cancelWithPropagation (c : nat) (parent : nat).

(** [type context struct]; the embedded [goContext.Context] and the
    children are references into the store.

    Modelled from the spec: the [Close(error)] and [Err()] that stream.go
    calls belong to the package [ctxtree], whose source is not in the
    repository.  The spec gives a node a [cause] attribute, recorded when
    the node is closed; it is the one field here that context.go's struct
    does not have.  [None]: no [Close] has closed the node; [Some None]:
    closed gracefully, with no cause; [Some (Some e)]: closed with cause
    [e]. *)
Record context : Type := mkContext {
  goContext : nat;
  cancel : CancelFunc;
  children : list nat;
  config : Config;
  cause : option (option error)
}.

(** A buffered [chan T]. *)
Record chan : Type := mkChan {
  buf : list T;
  cap : Z;
  closed : bool
}.

(** The heap, the clock, and the package variable [DefaultConfig] of
    context.go, which any client may assign. *)
Record state : Type := mkState {
  now : Z;
  stds : list std.ctx;
  nodes : list context;
  chans : list chan;
  DefaultConfig : Config
}.

Definition with_stds (cs : list std.ctx) (s : state) : state :=
  {| now := now s; stds := cs; nodes := nodes s; chans := chans s;
     DefaultConfig := DefaultConfig s |}.

Definition with_nodes (ns : list context) (s : state) : state :=
  {| now := now s; stds := stds s; nodes := ns; chans := chans s;
     DefaultConfig := DefaultConfig s |}.

Definition with_chans (chs : list chan) (s : state) : state :=
  {| now := now s; stds := stds s; nodes := nodes s; chans := chs;
     DefaultConfig := DefaultConfig s |}.

(** [DefaultConfig = cfg], an assignment by client code. *)
Definition set_DefaultConfig (cfg : Config) (s : state) : state :=
  {| now := now s; stds := stds s; nodes := nodes s; chans := chans s;
     DefaultConfig := cfg |}.

(** The store at program start. *)
Definition empty_state : state :=
  {| now := 0; stds := []; nodes := []; chans := [];
     DefaultConfig := initial_config |}.

(** What the environment can do to the standard contexts: call the cancel
    function of one of them, or let time pass. *)
Definition std_cancel (c : nat) (s : state) : state :=
  with_stds (std.cancel Canceled c (stds s)) s.

Definition elapse (d : Z) (s : state) : state :=
  {| now := now s + d;
     stds := std.expire (now s + d) (stds s);
     nodes := nodes s;
     chans := chans s;
     DefaultConfig := DefaultConfig s |}.

(** [context.WithCancel(r)] and [context.WithDeadline(r, now + d)] called by
    client code, to build the context handed to [FromStdContext]. *)
Definition std_WithCancel (r : std.ref) (s : state) : nat * state :=
  let '(c, cs) := std.WithCancel r (stds s) in (c, with_stds cs s).

Definition std_WithTimeout (r : std.ref) (d : Z) (s : state) : nat * state :=
  let '(c, cs) := std.WithDeadline (now s) r (now s + d) (stds s) in
  (c, with_stds cs s).

(** ** context.go: the context tree *)

Module ctxtree.

(** [ctx.Done()] is ready / [ctx.Err()], through the embedded context. *)
Definition Done (s : state) (n : nat) : bool :=
  match nodes s !! n with
  | Some c => std.Done (stds s) (Some (goContext c))
  | None => false
  end.

Definition Err (s : state) (n : nat) : option error :=
  match nodes s !! n with
  | Some c => std.Err (stds s) (Some (goContext c))
  | None => None
  end.

Definition GetConfig (s : state) (n : nat) : option Config :=
  config <$> nodes s !! n.

(** [FromStdContext(stdCtx)]: returns the new node. *)
Definition FromStdContext (stdCtx : std.ref) (s : state) : nat * state :=
  let '(c, cs) := std.WithCancel stdCtx (stds s) in
  (length (nodes s),
   {| now := now s;
      stds := cs;
      nodes := nodes s ++ [ {| goContext := c; cancel := stdCancel c;
                               children := []; config := DefaultConfig s;
                               cause := None |} ];
      chans := chans s;
      DefaultConfig := DefaultConfig s |}).

(** [New()]. *)
Definition New (s : state) : nat * state := FromStdContext None s.

(** The loop of [Close]: every child's [Done] is ready. *)
Definition all_done (s : state) (l : list nat) : bool := forallb (Done s) l.

(** [ctx.Close()].  [cancelWithPropagation] calls the parent's [Close], so
    the recursion climbs the tree; [fuel] bounds the climb.  [None]: a
    handle that is not in the store, or no fuel left. *)
Fixpoint Close_fuel (fuel : nat) (n : nat) (s : state) : option state :=
  match fuel with
  | O => None
  | S f =>
    match nodes s !! n with
    | None => None
    | Some c =>
      if all_done s (children c) then
        match cancel c with
        | stdCancel k => Some (std_cancel k s)
        | cancelWithPropagation k p => Close_fuel f p (std_cancel k s)
        end
      else Some s
    end
  end.

(** A parent is always older than its child, so [S n] steps suffice. *)
Definition Close (n : nat) (s : state) : option state := Close_fuel (S n) n s.

Definition add_child (child : nat) (c : context) : context :=
  {| goContext := goContext c; cancel := cancel c;
     children := children c ++ [child]; config := config c;
     cause := cause c |}.

(** [parent.NewChild()]: returns the child. *)
Definition NewChild (parent : nat) (s : state) : option (nat * state) :=
  match nodes s !! parent with
  | None => None
  | Some p =>
    let '(k, cs) := std.WithCancel (Some (goContext p)) (stds s) in
    let child := {| goContext := k; cancel := cancelWithPropagation k parent;
                    children := []; config := config p; cause := None |} in
    let id := length (nodes s) in
    Some (id,
          {| now := now s;
             stds := cs;
             nodes := <[parent := add_child id p]> (nodes s ++ [child]);
             chans := chans s;
             DefaultConfig := DefaultConfig s |})
  end.

End ctxtree.

(** ** Channels *)

(** How a call ends: it returns, it panics, or it is parked on a channel
    operation that cannot proceed in the current state.  A parked goroutine
    resumes by trying the same operation again in a later state. *)
Inductive outcome (A : Type) : Type :=
  | Returns (a : A) (s : state)
  | Panics (s : state)
  | Blocks (s : state).
Arguments Returns {A} a s.
Arguments Panics {A} s.
Arguments Blocks {A} s.

Definition has_room (c : chan) : bool := Z.of_nat (length (buf c)) <? cap c.

Definition enqueue (x : T) (c : chan) : chan :=
  {| buf := buf c ++ [x]; cap := cap c; closed := closed c |}.

Definition dequeue (c : chan) : chan :=
  {| buf := tail (buf c); cap := cap c; closed := closed c |}.

Definition mark_closed (c : chan) : chan :=
  {| buf := buf c; cap := cap c; closed := true |}.

(** [ch <- x].  A send on a closed channel panics; a buffered send proceeds
    while the buffer has room.  (A rendezvous with a parked receiver on a
    channel of capacity 0 is not part of the model: such a send parks.) *)
Definition chan_send (ch : nat) (x : T) (s : state) : outcome unit :=
  match chans s !! ch with
  | None => Blocks s
  | Some c =>
    if closed c then Panics s
    else if has_room c then Returns tt (with_chans (<[ch := enqueue x c]> (chans s)) s)
    else Blocks s
  end.

(** [v, ok := <-ch]: [Some v] is a delivered item, [None] the signal of a
    closed and drained channel. *)
Definition chan_recv (ch : nat) (s : state) : outcome (option T) :=
  match chans s !! ch with
  | None => Blocks s
  | Some c =>
    match buf c with
    | x :: _ => Returns (Some x) (with_chans (<[ch := dequeue c]> (chans s)) s)
    | [] => if closed c then Returns None s else Blocks s
    end
  end.

(** [close(ch)]: closing a closed (or nil) channel panics. *)
Definition chan_close (ch : nat) (s : state) : outcome unit :=
  match chans s !! ch with
  | None => Panics s
  | Some c =>
    if closed c then Panics s
    else Returns tt (with_chans (<[ch := mark_closed c]> (chans s)) s)
  end.

(** [n] successive receives by a drainer; stops at the first that does not
    deliver. *)
Fixpoint drain (n : nat) (ch : nat) (s : state) : list T * state :=
  match n with
  | O => ([], s)
  | S k =>
    match chan_recv ch s with
    | Returns (Some x) s' => let '(xs, s'') := drain k ch s' in (x :: xs, s'')
    | _ => ([], s)
    end
  end.

(** [make(chan T, n)]: the runtime's [makechan] panics ("size out of
    range") when [n] is negative or when the buffer, at 16 bytes for each
    interface value, would pass [maxAlloc - hchanSize]; the figures are
    those of a 64-bit runtime (linux/amd64). *)
Definition maxAlloc : Z := 2 ^ 48.

Definition hchanSize : Z := 96.

Definition makechan_in_range (n : Z) : bool :=
  (0 <=? n) && (n * 16 <=? maxAlloc - hchanSize).

(** ** The Context a stream is bound to

    Modelled from the spec: stream.go is written against the package
    [ctxtree] - it calls [ctx.Close(err)] and [ctx.Err()] - and that
    package is not in the repository; context.go, package [context], has a
    [Close] without argument.  [Close] and [Err] below follow the spec
    (4.1): [Close(node, cause)] does nothing when the node is already
    closed or has a child that is not done, and otherwise marks the node
    done and records [cause]; the close function of a child marks the child
    done and then attempts to close its parent, as the closure of
    context.go does, which hands no cause on; [Err(node)] is the recorded
    cause, none when the node was closed gracefully or is still open; a
    node closed by a deadline reports deadline-exceeded, independent of
    explicit close calls.  A node that is done without any [Close] -
    cancelled from the standard context above it - reports the error of
    its embedded standard context, as context.go does.  [Done], [Config]
    and [NewChild] are those of context.go, which the spec describes
    alike. *)

Module bound.

(** Modelled from the spec: the node with its cause recorded. *)
Definition set_cause (why : option error) (c : context) : context :=
  {| goContext := goContext c; cancel := cancel c; children := children c;
     config := config c; cause := Some why |}.

(** Modelled from the spec: mark node [n] done and record the cause.  The
    node is marked done as context.go does it, by the cancel function of
    its standard context. *)
Definition mark_done (n : nat) (why : option error) (c : context) (s : state)
  : state :=
  with_nodes (<[n := set_cause why c]> (nodes s)) (std_cancel (goContext c) s).

(** Modelled from the spec: [ctx.Close(cause)] of the absent [ctxtree].
    A node already closed, or with a child that is not done, is left as it
    is; otherwise the node is marked done with [cause], and a child then
    attempts to close its parent, handing no cause on.  [fuel] bounds the
    climb to the root, as for the [Close] of context.go. *)
Fixpoint Close_fuel (fuel : nat) (n : nat) (why : option error) (s : state)
  : option state :=
  match fuel with
  | O => None
  | S f =>
    match nodes s !! n with
    | None => None
    | Some c =>
      if ctxtree.Done s n then Some s
      else if ctxtree.all_done s (children c) then
        match cancel c with
        | stdCancel _ => Some (mark_done n why c s)
        | cancelWithPropagation _ p => Close_fuel f p None (mark_done n why c s)
        end
      else Some s
    end
  end.

(** Modelled from the spec: [ctx.Close(cause)], with fuel enough for the
    climb. *)
Definition Close (n : nat) (why : option error) (s : state) : option state :=
  Close_fuel (S n) n why s.

(** Modelled from the spec: [ctx.Err()] of the absent [ctxtree].  Nil
    while the context is open; [DeadlineExceeded] when a deadline closed
    it; else the cause recorded by [Close], nil for a graceful close; the
    error of the standard context when no [Close] recorded anything. *)
Definition Err (s : state) (n : nat) : option error :=
  match nodes s !! n with
  | None => None
  | Some c =>
    match ctxtree.Err s n with
    | None => None
    | Some DeadlineExceeded => Some DeadlineExceeded
    | Some e => match cause c with Some why => why | None => Some e end
    end
  end.

End bound.

(** ** stream.go *)

Module stream.

Record reader : Type := mkReader { rctx : nat; rch : nat }.
Record writer : Type := mkWriter { wctx : nat; wch : nat }.

(** [New(ctx)]: [make] panics on a size out of range. *)
Definition New (ctx : nat) (s : state) : outcome (reader * writer) :=
  match ctxtree.GetConfig s ctx with
  | None => Panics s
  | Some cfg =>
    if makechan_in_range (BufferSize cfg) then
      let ch := length (chans s) in
      Returns ({| rctx := ctx; rch := ch |}, {| wctx := ctx; wch := ch |})
              (with_chans (chans s ++ [ {| buf := []; cap := BufferSize cfg;
                                           closed := false |} ]) s)
    else Panics s
  end.

(** [reader.Read()] hands out the channel itself. *)
Definition Read (r : reader) : nat := rch r.

Definition reader_Done (r : reader) (s : state) : bool := ctxtree.Done s (rctx r).

(** [reader.Close(err)]: [reader.ctx.Close(err)], and nothing else. *)
Definition reader_Close (r : reader) (err : option error) (s : state)
  : option state :=
  bound.Close (rctx r) err s.

Definition NewDownstream (r : reader) (s : state) : outcome (reader * writer) :=
  match ctxtree.NewChild (rctx r) s with
  | None => Panics s
  | Some (child, s') => New child s'
  end.

(** The inner [select] of [write]: the send case is ready when the send
    would proceed (or panic), the other when the context is done; with
    both ready Go picks one at random, here [pick_send]. *)
Definition send_ready (w : writer) (s : state) : bool :=
  match chans s !! wch w with
  | Some c => closed c || has_room c
  | None => false
  end.

Definition inner_select (pick_send : bool) (w : writer) (data : T) (s : state)
  : outcome (option error) :=
  if send_ready w s && (negb (ctxtree.Done s (wctx w)) || pick_send) then
    match chan_send (wch w) data s with
    | Returns _ s' => Returns None s'
    | Panics s' => Panics s'
    | Blocks s' => Blocks s'
    end
  else if ctxtree.Done s (wctx w) then Returns (bound.Err s (wctx w)) s
  else Blocks s.

(** [writer.write(data)].  [mid] is what the other goroutines do between
    the outer [select] taking its [default] branch and the inner one. *)
Definition write_under (mid : state -> state) (pick_send : bool)
    (w : writer) (data : T) (s : state) : outcome (option error) :=
  if ctxtree.Done s (wctx w) then Returns (bound.Err s (wctx w)) s
  else inner_select pick_send w data (mid s).

(** [write] run without interference. *)
Definition write (pick_send : bool) (w : writer) (data : T) (s : state)
  : outcome (option error) :=
  write_under (fun s => s) pick_send w data s.

(** [writer.Write(items...)].  [env (2*i)] is what the other goroutines do
    before the [i]-th item is tried, [env (2*i+1)] what they do inside its
    [write]; [pick i] settles the inner [select] of that item. *)
Fixpoint Write_under (env : nat -> state -> state) (pick : nat -> bool)
    (i : nat) (w : writer) (items : list T) (s : state)
  : outcome (option error) :=
  match items with
  | [] => Returns None s
  | item :: rest =>
    match write_under (env (2 * i + 1)%nat) (pick i) w item (env (2 * i)%nat s) with
    | Returns None s' => Write_under env pick (S i) w rest s'
    | Returns (Some e) s' => Returns (Some e) s'
    | Panics s' => Panics s'
    | Blocks s' => Blocks s'
    end
  end.

(** [Write] run without interference. *)
Definition Write (w : writer) (items : list T) (s : state)
  : outcome (option error) :=
  Write_under (fun _ s => s) (fun _ => true) O w items s.

(** [writer.Close(err)]: [ctx.Close(err)] runs, then the deferred [close],
    which also runs when [ctx.Close] has crashed. *)
Definition writer_Close (w : writer) (err : option error) (s : state)
  : outcome unit :=
  match bound.Close (wctx w) err s with
  | Some s' => chan_close (wch w) s'
  | None =>
    match chan_close (wch w) s with
    | Returns _ s' => Panics s'
    | other => other
    end
  end.

Definition Writable (w : writer) : nat := wch w.

End stream.

Import stream.

(** ** Auxiliary notions used in the statements *)

(** [ctx.cancel()] for the two closures. *)
Definition call_cancel (f : CancelFunc) (s : state) : option state :=
  match f with
  | stdCancel k => Some (std_cancel k s)
  | cancelWithPropagation k p => ctxtree.Close p (std_cancel k s)
  end.

Definition parent_of (c : context) : option nat :=
  match cancel c with
  | cancelWithPropagation _ p => Some p
  | stdCancel _ => None
  end.

(** [node_descends fuel ns a n]: node [n] is [a] or was derived from it by
    a chain of [NewChild]. *)
Fixpoint node_descends (fuel : nat) (ns : list context) (a n : nat) : bool :=
  if decide (n = a) then true
  else match fuel with
       | O => false
       | S f =>
         match ns !! n with
         | Some c =>
           match parent_of c with
           | Some p => node_descends f ns a p
           | None => false
           end
         | None => false
         end
       end.

(** [derives cs a i]: the standard context [i] is [a], or was derived from
    a context that derives from [a]. *)
Inductive derives (cs : list std.ctx) (a : nat) : nat -> Prop :=
  | derives_refl : derives cs a a
  | derives_step i c p :
      cs !! i = Some c -> std.parent c = Some p -> derives cs a p ->
      derives cs a i.

(** The other goroutines leave the writer's channel alone. *)
Definition keeps_chan (ch : nat) (env : nat -> state -> state) : Prop :=
  forall j t, chans (env j t) !! ch = chans t !! ch.


(** The other goroutines do not close the context. *)
Definition keeps_open (ctx : nat) (env : nat -> state -> state) : Prop :=
  forall j t, ctxtree.Done t ctx = false -> ctxtree.Done (env j t) ctx = false.

Definition set_buf (l : list T) (c : chan) : chan :=
  {| buf := l; cap := cap c; closed := closed c |}.

(** ** Well-formed stores

    The shape of every store that the operations above build from
    [empty_state]. *)

(** Every standard context is younger than the one it derives from. *)
Definition wf_std (cs : list std.ctx) : Prop :=
  forall i c p, cs !! i = Some c -> std.parent c = Some p -> (p < i)%nat.

(** The [cancel] closure of a node holds the cancel function of the node's
    own standard context; a child is younger than its parent, and its
    standard context derives from the parent's. *)
Definition wf_node (s : state) (n : nat) (c : context) : Prop :=
  (goContext c < length (stds s))%nat /\
  match cancel c with
  | stdCancel k => k = goContext c
  | cancelWithPropagation k p =>
    k = goContext c /\ (p < n)%nat /\
    exists pc kc, nodes s !! p = Some pc /\ stds s !! k = Some kc /\
                  std.parent kc = Some (goContext pc)
  end.

Definition wf (s : state) : Prop :=
  wf_std (stds s) /\ forall n c, nodes s !! n = Some c -> wf_node s n c.

(** ** Programs

    The store a call leaves behind, and sequences of calls. *)

Definition after_NewChild (parent : nat) (s : state) : state :=
  match ctxtree.NewChild parent s with Some (_, s') => s' | None => s end.

Definition after_Close (n : nat) (s : state) : state :=
  match ctxtree.Close n s with Some s' => s' | None => s end.


Definition state_of {A : Type} (o : outcome A) : state :=
  match o with Returns _ s => s | Panics s => s | Blocks s => s end.

(** What a program can do to the store, one call at a time. *)
Inductive action : Type :=
  | ActStdWithCancel (r : std.ref)
  | ActStdWithTimeout (r : std.ref) (d : Z)
  | ActStdCancel (c : nat)
  | ActElapse (d : Z)
  | ActFromStdContext (r : std.ref)
  | ActNewChild (parent : nat)
  | ActClose (n : nat)
  | ActStreamNew (ctx : nat)
  | ActWrite (w : writer) (items : list T)
  | ActRecv (ch : nat)
  | ActWriterClose (w : writer) (err : option error)
  | ActReaderClose (r : reader) (err : option error)
  | ActSetDefaultConfig (cfg : Config).

(** A handle a client holds refers to a context that exists. *)
Definition valid_ref (r : std.ref) (s : state) : bool :=
  match r with
  | None => true
  | Some i => bool_decide (i < length (stds s))%nat
  end.

Definition perform (a : action) (s : state) : state :=
  match a with
  | ActStdWithCancel r => if valid_ref r s then snd (std_WithCancel r s) else s
  | ActStdWithTimeout r d => if valid_ref r s then snd (std_WithTimeout r d s) else s
  | ActStdCancel c => std_cancel c s
  | ActElapse d => elapse d s
  | ActFromStdContext r =>
    if valid_ref r s then snd (ctxtree.FromStdContext r s) else s
  | ActNewChild parent => after_NewChild parent s
  | ActClose n => after_Close n s
  | ActStreamNew ctx => state_of (New ctx s)
  | ActWrite w items => state_of (Write w items s)
  | ActRecv ch => state_of (chan_recv ch s)
  | ActWriterClose w err => state_of (writer_Close w err s)
  | ActReaderClose r err =>
    match reader_Close r err s with Some s' => s' | None => s end
  | ActSetDefaultConfig cfg => set_DefaultConfig cfg s
  end.

Definition run (l : list action) (s : state) : state :=
  fold_left (fun s a => perform a s) l s.

(** ** Scenarios *)

(** A config a client assigns to the package variable. *)
Definition ex_small_config : Config := {| Timeout := 7; BufferSize := 3 |}.

(** [New()] on the empty store: node 0. *)
Definition ex_root : state := snd (ctxtree.New empty_state).

(** A root (node 0) with two children (nodes 1 and 2). *)
Definition ex_fork : state := after_NewChild 0 (after_NewChild 0 ex_root).

(** A standard context [r = 0] built by the client, a root from it
    (node 0), a child (node 1) and a grandchild (node 2). *)
Definition ex_chain : state :=
  let s0 := snd (std_WithCancel None empty_state) in
  let s1 := snd (ctxtree.FromStdContext (Some 0%nat) s0) in
  after_NewChild 1 (after_NewChild 0 s1).

(** A root built from a client context with a 10ms timeout: node 0 on
    standard context 1, derived from the client's context 0. *)
Definition ex_deadline : state :=
  let s0 := snd (std_WithTimeout None 10000000 empty_state) in
  snd (ctxtree.FromStdContext (Some 0%nat) s0).

(** The stream of [New(ctxtree.New())] on the empty store: context 0,
    channel 0. *)
Definition ex_stream : state := state_of (New 0 ex_root).

Definition ex_reader : reader := {| rctx := 0; rch := 0 |}.

Definition ex_writer : writer := {| wctx := 0; wch := 0 |}.

(** The store of [stream.Empty]: a fresh stream whose writer has been
    closed once, with [nil]. *)
Definition Empty : state := state_of (writer_Close ex_writer None ex_stream).

(** A stream on the root of [ex_fork], whose two children are open. *)
Definition ex_fork_stream : state := state_of (New 0 ex_fork).

(** [ex_stream] with two items in the buffer. *)
Definition ex_two_written : state :=
  with_chans [mkChan [IntVal 1; IntVal 2] 1000 false] ex_stream.



(** Two items are buffered in [ex_stream], then its context is closed. *)
Definition ex_closed_with_items : state := after_Close 0 ex_two_written.

(** The buffer of [ex_stream] is full; the context is open. *)
Definition ex_full : state :=
  with_chans [mkChan (repeat (IntVal 0) 1000) 1000 false] ex_stream.

(** The buffer is full and the context has been closed. *)
Definition ex_full_closed : state := after_Close 0 ex_full.

(** ** Further notions and scenarios *)

(** Every context derived from [a] is done. *)
Definition settled (cs : list std.ctx) (a : nat) : Prop :=
  forall i c, cs !! i = Some c -> std.descends (length cs) cs a i = true ->
              std.is_done c = true.

(** What context.go's struct holds of a node: all but the cause. *)
Definition shape (c : context) : nat * CancelFunc * list nat * Config :=
  (goContext c, cancel c, children c, config c).

(** The same nodes, up to the causes recorded. *)
Definition same_shape (ns ns' : list context) : Prop :=
  forall i, shape <$> ns' !! i = shape <$> ns !! i.

(** A child has the config of its parent. *)
Definition config_inherited (s : state) : Prop :=
  forall n c p pc, nodes s !! n = Some c -> parent_of c = Some p ->
                   nodes s !! p = Some pc -> config c = config pc.

(** Two nodes never share a standard context. *)
Definition ctx_injective (s : state) : Prop :=
  forall n m cn cm, nodes s !! n = Some cn -> nodes s !! m = Some cm ->
                    goContext cn = goContext cm -> n = m.

(** The children of a node are nodes made by its [NewChild]. *)
Definition children_linked (s : state) : Prop :=
  forall n c ch, nodes s !! n = Some c -> ch ∈ children c ->
                 exists cc, nodes s !! ch = Some cc /\ parent_of cc = Some n.

Definition store_inv (s : state) : Prop :=
  wf s /\ config_inherited s /\ ctx_injective s /\ children_linked s.

(** The part of the invariant that only concerns the shape of the nodes. *)
Definition tree_inv (s : state) : Prop :=
  config_inherited s /\ ctx_injective s /\ children_linked s.

(** [on_path ns n a]: [a] is [n] or one of its ancestors. *)
Inductive on_path (ns : list context) (n : nat) : nat -> Prop :=
  | on_path_self : on_path ns n n
  | on_path_up a c p :
      on_path ns n a -> ns !! a = Some c -> parent_of c = Some p ->
      on_path ns n p.

(** A pipeline of three stages: root 0, its child 1, and the child 2 of 1. *)
Definition ex_pipeline : state :=
  run [ActFromStdContext None; ActNewChild 0; ActNewChild 1] empty_state.

(** [stream.Empty], built on any store: [New(ctxtree.New())], then
    [w.Close(nil)]; the reader is the value. *)
Definition make_Empty (s : state) : outcome reader :=
  let '(ctx, s1) := ctxtree.New s in
  match New ctx s1 with
  | Returns (r, w) s2 =>
    match writer_Close w None s2 with
    | Returns _ s3 => Returns r s3
    | Panics s3 => Panics s3
    | Blocks s3 => Blocks s3
    end
  | Panics s2 => Panics s2
  | Blocks s2 => Blocks s2
  end.

(** A derived standard context has a deadline whenever the one it derives
    from has one, and no later one. *)
Definition deadlines_inherited (cs : list std.ctx) : Prop :=
  forall i c p cp dp,
    cs !! i = Some c -> std.parent c = Some p -> cs !! p = Some cp ->
    std.deadline cp = Some dp ->
    exists d, std.deadline c = Some d /\ d <= dp.

(** A client context with a 10ms timeout, a root on it (node 0) and a
    child (node 1). *)
Definition ex_deadline_child : state :=
  run [ActStdWithTimeout None 10000000; ActFromStdContext (Some 0%nat);
       ActNewChild 0] empty_state.

(** [actual != expected] on [interface{}] values. *)
#[global] Instance T_eq_dec : EqDecision T.
Proof.
  intros x y. unfold Decision. decide equality;
    [apply Z.eq_dec|apply String.string_dec].
Defined.

(** The value of [fmt.Errorf(format, args...)], left unformatted. *)
Inductive fmt_error : Type :=
  | Errorf (format : String.string) (args : list T).

(** [rivers.Producer], as [Produce] uses it: called on a context, it
    returns a reader.  What it has put in the reader's buffer by then is in
    the store it leaves; what its goroutine would add later is not part of
    a run, and a receive that finds the buffer empty and open parks. *)
Definition Producer : Type := nat -> state -> outcome reader.

(** The loop of [Produce]: one receive per expected item; a closed and
    drained channel yields nil. *)
Fixpoint Produce_loop (rd : reader) (items : list Z) (s : state)
  : outcome (option fmt_error) :=
  match items with
  | [] => Returns None s
  | item :: rest =>
    match chan_recv (Read rd) s with
    | Returns v s' =>
      let data := match v with Some x => x | None => NilVal end in
      if decide (data = IntVal item) then Produce_loop rd rest s'
      else Returns (Some (Errorf "Expected producer to have produced %v, got %v"
                            [IntVal item; data])) s'
    | Panics s' => Panics s'
    | Blocks s' => Blocks s'
    end
  end.

(** [Produce(items...)(actual)]: [actual] is a producer, or some other
    value. *)
Definition Produce (items : list Z) (actual : T + Producer) (s : state)
  : outcome (option fmt_error) :=
  match actual with
  | inl v =>
    Returns (Some (Errorf "Expected actual to implement 'rivers.Producer', got %v"
                     [v])) s
  | inr producer =>
    let '(ctx, s1) := ctxtree.New s in
    match producer ctx s1 with
    | Returns rd s2 => Produce_loop rd items s2
    | Panics s2 => Panics s2
    | Blocks s2 => Blocks s2
    end
  end.

(** A producer that makes a stream on the context it is given and writes
    [xs] to it before returning. *)
Definition ex_producer (xs : list T) : Producer :=
  fun ctx s =>
    match New ctx s with
    | Returns (r, w) s1 =>
      match Write w xs s1 with
      | Returns _ s2 => Returns r s2
      | Panics s2 => Panics s2
      | Blocks s2 => Blocks s2
      end
    | Panics s1 => Panics s1
    | Blocks s1 => Blocks s1
    end.

(** * Properties *)

(** ** Standard contexts *)

Section std_facts.
Implicit Types (cs : list std.ctx) (e : error) (r : std.ref).

Lemma cancel_lookup e a cs i :
  std.cancel e a cs !! i =
  (fun c => if std.descends (length cs) cs a i && negb (std.is_done c)
            then std.set_err e c else c) <$> cs !! i.
Proof. unfold std.cancel. by rewrite list_lookup_imap. Qed.

Lemma cancel_length e a cs : length (std.cancel e a cs) = length cs.
Proof. unfold std.cancel. by rewrite length_imap. Qed.

Lemma cancel_parent e a cs i :
  std.parent <$> std.cancel e a cs !! i = std.parent <$> cs !! i.
Proof.
  rewrite cancel_lookup. destruct (cs !! i) as [c|]; simpl; [|done].
  by destruct (_ && _).
Qed.

Lemma cancel_Done_mono e a cs r :
  std.Done cs r = true -> std.Done (std.cancel e a cs) r = true.
Proof.
  destruct r as [i|]; simpl; [|done].
  rewrite cancel_lookup. destruct (cs !! i) as [c|]; simpl; [|done].
  intros H. rewrite H. simpl. rewrite andb_false_r. done.
Qed.

Lemma cancel_Err_sticks e a cs r e' :
  std.Err cs r = Some e' -> std.Err (std.cancel e a cs) r = Some e'.
Proof.
  destruct r as [i|]; simpl; [|done].
  rewrite cancel_lookup. destruct (cs !! i) as [c|]; simpl; [|done].
  intros H. unfold std.is_done. rewrite H. simpl. by rewrite andb_false_r.
Qed.

Lemma cancel_descendant e a cs i :
  (i < length cs)%nat ->
  std.descends (length cs) cs a i = true ->
  std.Done (std.cancel e a cs) (Some i) = true.
Proof.
  intros Hi Hd. simpl. rewrite cancel_lookup.
  destruct (lookup_lt_is_Some_2 cs i Hi) as [c Hc]. rewrite Hc. simpl.
  rewrite Hd. simpl. unfold std.is_done at 2.
  destruct (std.err c) eqn:E; simpl.
  - unfold std.is_done. by rewrite E.
  - done.
Qed.

Lemma descends_refl fuel cs a : std.descends fuel cs a a = true.
Proof. destruct fuel; simpl; by rewrite decide_True. Qed.

Lemma cancel_self e a cs :
  (a < length cs)%nat -> std.Done (std.cancel e a cs) (Some a) = true.
Proof. intros. apply cancel_descendant; [done|apply descends_refl]. Qed.

Lemma wf_std_cancel e a cs : wf_std cs -> wf_std (std.cancel e a cs).
Proof.
  intros Hwf i c p Hi Hp.
  pose proof (cancel_parent e a cs i) as H. rewrite Hi in H. simpl in H.
  destruct (cs !! i) as [c0|] eqn:E; simpl in H; [|done].
  apply (Hwf i c0 p E). congruence.
Qed.

End std_facts.

(** ** The context tree *)

Section tree_facts.
Implicit Types (s : state) (n : nat).

Lemma Done_std_cancel_mono k s n :
  ctxtree.Done s n = true -> ctxtree.Done (std_cancel k s) n = true.
Proof.
  unfold ctxtree.Done. cbn [std_cancel with_stds nodes stds].
  destruct (nodes s !! n) as [c|]; [|done]. apply cancel_Done_mono.
Qed.

Lemma Err_std_cancel_sticks k s n e :
  ctxtree.Err s n = Some e -> ctxtree.Err (std_cancel k s) n = Some e.
Proof.
  unfold ctxtree.Err. cbn [std_cancel with_stds nodes stds].
  destruct (nodes s !! n) as [c|]; [|done]. apply cancel_Err_sticks.
Qed.

(** A done context reports an error, and only a done one does. *)
Lemma Done_Err s n : ctxtree.Done s n = true <-> is_Some (ctxtree.Err s n).
Proof.
  unfold ctxtree.Done, ctxtree.Err. destruct (nodes s !! n) as [c|]; simpl.
  - destruct (stds s !! goContext c) as [k|]; simpl.
    + unfold std.is_done. destruct (std.err k); split; intros H; try done; by eauto.
    + split; intros H; [done|by destruct H].
  - split; intros H; [done|by destruct H].
Qed.

Lemma wf_std_cancel_state k s : wf s -> wf (std_cancel k s).
Proof.
  intros [Hs Hn]. split; simpl.
  - by apply wf_std_cancel.
  - intros n c Hc. destruct (Hn n c Hc) as [Hlen Hk]. split.
    + simpl. by rewrite cancel_length.
    + destruct (cancel c) as [k'|k' p]; [done|].
      destruct Hk as (-> & Hp & pc & kc & Hpc & Hkc & Hpar).
      split; [done|]. split; [done|].
      pose proof (cancel_parent Canceled k (stds s) (goContext c)) as H.
      rewrite Hkc in H. simpl in H.
      destruct (std.cancel Canceled k (stds s) !! goContext c) as [kc'|] eqn:E;
        [|done].
      exists pc, kc'. simpl. repeat split; [done|done|]. simpl in H. congruence.
Qed.

(** [Close] only touches the standard contexts. *)
Lemma Close_fuel_frame fuel n s s' :
  ctxtree.Close_fuel fuel n s = Some s' ->
  nodes s' = nodes s /\ chans s' = chans s /\ now s' = now s /\
  length (stds s') = length (stds s).
Proof.
  revert n s. induction fuel as [|f IH]; intros n s; simpl; [done|].
  destruct (nodes s !! n) as [c|]; [|done].
  destruct (ctxtree.all_done s (children c)).
  - destruct (cancel c) as [k|k p].
    + intros [= <-]. simpl. by rewrite cancel_length.
    + intros H. apply IH in H. simpl in H. by rewrite cancel_length in H.
  - by intros [= <-].
Qed.

Lemma Close_fuel_Done_mono fuel n s s' m :
  ctxtree.Close_fuel fuel n s = Some s' ->
  ctxtree.Done s m = true -> ctxtree.Done s' m = true.
Proof.
  revert n s. induction fuel as [|f IH]; intros n s; simpl; [done|].
  destruct (nodes s !! n) as [c|]; [|done].
  destruct (ctxtree.all_done s (children c)).
  - destruct (cancel c) as [k|k p].
    + intros [= <-]. apply Done_std_cancel_mono.
    + intros H Hm. eapply IH; [exact H|]. by apply Done_std_cancel_mono.
  - by intros [= <-].
Qed.

Lemma Close_fuel_wf fuel n s s' :
  ctxtree.Close_fuel fuel n s = Some s' -> wf s -> wf s'.
Proof.
  revert n s. induction fuel as [|f IH]; intros n s; simpl; [done|].
  destruct (nodes s !! n) as [c|]; [|done].
  destruct (ctxtree.all_done s (children c)).
  - destruct (cancel c) as [k|k p].
    + intros [= <-]. apply wf_std_cancel_state.
    + intros H Hwf. eapply IH; [exact H|]. by apply wf_std_cancel_state.
  - by intros [= <-].
Qed.

(** More fuel does not change a result. *)
Lemma Close_fuel_more fuel fuel' n s s' :
  ctxtree.Close_fuel fuel n s = Some s' -> (fuel <= fuel')%nat ->
  ctxtree.Close_fuel fuel' n s = Some s'.
Proof.
  revert fuel' n s. induction fuel as [|f IH]; intros fuel' n s; simpl; [done|].
  intros H Hle. destruct fuel' as [|f']; [lia|]. simpl.
  destruct (nodes s !! n) as [c|]; [|done].
  destruct (ctxtree.all_done s (children c)); [|done].
  destruct (cancel c) as [k|k p]; [done|].
  apply IH; [done|lia].
Qed.

(** On a well-formed store [Close] never runs out of fuel. *)
Lemma Close_fuel_total fuel n s :
  wf s -> (n < length (nodes s))%nat -> (n < fuel)%nat ->
  is_Some (ctxtree.Close_fuel fuel n s).
Proof.
  revert n s. induction fuel as [|f IH]; intros n s Hwf Hn Hf; [lia|]. simpl.
  destruct (lookup_lt_is_Some_2 _ _ Hn) as [c Hc]. rewrite Hc.
  destruct (ctxtree.all_done s (children c)); [|by eauto].
  destruct (cancel c) as [k|k p] eqn:Ek; [by eauto|].
  destruct Hwf as [Hs Hnodes]. destruct (Hnodes n c Hc) as [_ Hk].
  rewrite Ek in Hk. destruct Hk as (_ & Hp & _).
  apply IH.
  - apply wf_std_cancel_state. by split.
  - simpl. lia.
  - lia.
Qed.

Lemma Close_total n s :
  wf s -> (n < length (nodes s))%nat -> is_Some (ctxtree.Close n s).
Proof. intros. apply Close_fuel_total; [done|done|lia]. Qed.

(** [Close] unfolds to the loop over the children followed by the call
    of the [cancel] closure. *)
Lemma Close_unfold n s c :
  wf s -> nodes s !! n = Some c ->
  ctxtree.Close n s =
  if ctxtree.all_done s (children c) then call_cancel (cancel c) s else Some s.
Proof.
  intros Hwf Hc. unfold ctxtree.Close. simpl. rewrite Hc.
  destruct (ctxtree.all_done s (children c)); [|done].
  destruct (cancel c) as [k|k p] eqn:Ek; [done|]. simpl.
  destruct Hwf as [Hs Hnodes]. destruct (Hnodes n c Hc) as [_ Hk].
  rewrite Ek in Hk. destruct Hk as (_ & Hp & pc & _ & Hpc & _).
  assert (Hwf' : wf (std_cancel k s)) by (apply wf_std_cancel_state; by split).
  assert (Hlt : (p < length (nodes (std_cancel k s)))%nat).
  { simpl. by eapply lookup_lt_Some. }
  destruct (Close_total p _ Hwf' Hlt) as [r Hr].
  rewrite Hr. eapply Close_fuel_more; [exact Hr|lia].
Qed.

End tree_facts.

(** ** Well-formedness is kept by every operation *)

Section wf_facts.
Implicit Types (s : state) (n : nat).

Lemma wf_empty : wf empty_state.
Proof. split; intros ? ? *; simpl; by rewrite lookup_nil. Qed.

Lemma wf_std_snoc cs k :
  wf_std cs ->
  (forall p, std.parent k = Some p -> (p < length cs)%nat) ->
  wf_std (cs ++ [k]).
Proof.
  intros Hwf Hk i c p Hi Hp.
  destruct (decide (i < length cs)%nat) as [Hlt|Hge].
  - rewrite lookup_app_l in Hi by done. by eapply Hwf.
  - rewrite lookup_app_r in Hi by lia.
    destruct (i - length cs)%nat eqn:E; simpl in Hi; [|by rewrite lookup_nil in Hi].
    injection Hi as <-. specialize (Hk p Hp). lia.
Qed.

(** Nodes stay well-formed when the stores only grow. *)
Lemma wf_node_grow s s' n c :
  wf_node s n c ->
  (forall i x, stds s !! i = Some x -> stds s' !! i = Some x) ->
  (forall i x, nodes s !! i = Some x ->
               exists x', nodes s' !! i = Some x' /\ goContext x' = goContext x) ->
  wf_node s' n c.
Proof.
  intros [Hlen Hk] Hstd Hnod. split.
  - destruct (lookup_lt_is_Some_2 _ _ Hlen) as [x Hx].
    eapply lookup_lt_Some. by apply Hstd.
  - destruct (cancel c) as [k|k p]; [done|].
    destruct Hk as (-> & Hp & pc & kc & Hpc & Hkc & Hpar).
    split; [done|]. split; [done|].
    destruct (Hnod p pc Hpc) as (pc' & Hpc' & Heq).
    exists pc', kc. rewrite Heq. auto.
Qed.

Lemma wf_std_WithCancel r s :
  wf s -> (forall p, r = Some p -> (p < length (stds s))%nat) ->
  wf (snd (std_WithCancel r s)).
Proof.
  intros [Hs Hn] Hr. split; simpl.
  - by apply wf_std_snoc.
  - intros n c Hc. eapply wf_node_grow; [by apply Hn| |].
    + intros i x Hx. simpl. by apply lookup_app_l_Some.
    + intros i x Hx. by exists x.
Qed.

Lemma wf_std_WithTimeout r d s :
  wf s -> (forall p, r = Some p -> (p < length (stds s))%nat) ->
  wf (snd (std_WithTimeout r d s)).
Proof.
  intros [Hs Hn] Hr. split; simpl.
  - by apply wf_std_snoc.
  - intros n c Hc. eapply wf_node_grow; [by apply Hn| |].
    + intros i x Hx. simpl. by apply lookup_app_l_Some.
    + intros i x Hx. by exists x.
Qed.

Lemma wf_FromStdContext r s :
  wf s -> (forall p, r = Some p -> (p < length (stds s))%nat) ->
  wf (snd (ctxtree.FromStdContext r s)).
Proof.
  intros [Hs Hn] Hr. split; simpl.
  - by apply wf_std_snoc.
  - intros n c Hc.
    destruct (decide (n < length (nodes s))%nat) as [Hlt|Hge].
    + rewrite lookup_app_l in Hc by done.
      eapply wf_node_grow; [by apply Hn| |].
      * intros i x Hx. simpl. by apply lookup_app_l_Some.
      * intros i x Hx. exists x. simpl. split; [|done]. by apply lookup_app_l_Some.
    + rewrite lookup_app_r in Hc by lia.
      destruct (n - length (nodes s))%nat eqn:E; simpl in Hc;
        [|by rewrite lookup_nil in Hc].
      injection Hc as <-. split; simpl; [|done].
      rewrite length_app. simpl. lia.
Qed.

Lemma wf_New s : wf s -> wf (snd (ctxtree.New s)).
Proof. intros. by apply wf_FromStdContext. Qed.

Lemma wf_NewChild parent s child s' :
  wf s -> ctxtree.NewChild parent s = Some (child, s') -> wf s'.
Proof.
  intros [Hs Hn]. unfold ctxtree.NewChild.
  destruct (nodes s !! parent) as [p|] eqn:Ep; [|done].
  simpl. intros [= <- <-].
  assert (Hplt : (parent < length (nodes s))%nat) by by eapply lookup_lt_Some.
  destruct (Hn parent p Ep) as [Hplen Hpk].
  assert (Hgrow : forall i x, nodes s !! i = Some x ->
            exists x', <[parent:=ctxtree.add_child (length (nodes s)) p]>
                         (nodes s ++ [ {| goContext := length (stds s);
                            cancel := cancelWithPropagation (length (stds s)) parent;
                            children := []; config := config p; cause := None |} ]) !! i = Some x'
                       /\ goContext x' = goContext x).
  { intros i x Hx. destruct (decide (i = parent)) as [->|Hne].
    - exists (ctxtree.add_child (length (nodes s)) p). split.
      + apply list_lookup_insert_eq. rewrite length_app. simpl. lia.
      + simpl. congruence.
    - exists x. split; [|done]. rewrite list_lookup_insert_ne by done.
      by apply lookup_app_l_Some. }
  split; simpl.
  - apply wf_std_snoc; [done|]. simpl. intros ? [= <-]. done.
  - intros n c Hc.
    destruct (decide (n = parent)) as [->|Hne].
    + rewrite list_lookup_insert_eq in Hc by (rewrite length_app; simpl; lia).
      injection Hc as <-.
      assert (Hw : wf_node s parent (ctxtree.add_child (length (nodes s)) p)).
      { split; simpl; [done|]. exact Hpk. }
      eapply wf_node_grow; [exact Hw| |exact Hgrow].
      intros i x Hx. simpl. by apply lookup_app_l_Some.
    + rewrite list_lookup_insert_ne in Hc by done.
      destruct (decide (n < length (nodes s))%nat) as [Hlt|Hge].
      * rewrite lookup_app_l in Hc by done.
        eapply wf_node_grow; [by apply Hn| |exact Hgrow].
        intros i x Hx. simpl. by apply lookup_app_l_Some.
      * rewrite lookup_app_r in Hc by lia.
        destruct (n - length (nodes s))%nat eqn:E; simpl in Hc;
          [|by rewrite lookup_nil in Hc].
        injection Hc as <-. split; simpl.
        { rewrite length_app. simpl. lia. }
        split; [done|]. split; [lia|].
        exists (ctxtree.add_child (length (nodes s)) p).
        eexists. split; [|split].
        { apply list_lookup_insert_eq. rewrite length_app. simpl. lia. }
        { rewrite lookup_app_r by lia. rewrite Nat.sub_diag. reflexivity. }
        done.
Qed.

Lemma wf_Close n s s' : wf s -> ctxtree.Close n s = Some s' -> wf s'.
Proof. intros Hwf H. by eapply Close_fuel_wf. Qed.

Lemma wf_elapse d s : wf s -> wf (elapse d s).
Proof.
  intros [Hs Hn].
  assert (Hlk : forall i, std.parent <$> std.expire (now s + d) (stds s) !! i
                          = std.parent <$> stds s !! i).
  { intros i. unfold std.expire. rewrite list_lookup_fmap.
    destruct (stds s !! i) as [x|]; simpl; [|done].
    destruct (std.deadline x); [|done]. by destruct (_ && _). }
  split; simpl.
  - intros i c p Hi Hp. pose proof (Hlk i) as H. rewrite Hi in H. simpl in H.
    destruct (stds s !! i) as [c0|] eqn:E; simpl in H; [|done].
    apply (Hs i c0 p E). congruence.
  - intros n c Hc. destruct (Hn n c Hc) as [Hlen Hk]. split.
    + simpl. unfold std.expire. by rewrite length_fmap.
    + destruct (cancel c) as [k'|k' p]; [done|].
      destruct Hk as (-> & Hp & pc & kc & Hpc & Hkc & Hpar).
      split; [done|]. split; [done|].
      pose proof (Hlk (goContext c)) as H. rewrite Hkc in H. simpl in H.
      destruct (std.expire (now s + d) (stds s) !! goContext c) as [kc'|] eqn:E;
        [|done].
      exists pc, kc'. simpl. repeat split; [done|done|]. simpl in H. congruence.
Qed.

(** Channel operations leave the contexts alone. *)
Lemma wf_with_chans chs s : wf s -> wf (with_chans chs s).
Proof. intros [Hs Hn]. split; [done|]. intros n c Hc. by apply Hn. Qed.

End wf_facts.

Lemma wf_after_NewChild parent s : wf s -> wf (after_NewChild parent s).
Proof.
  intros Hwf. unfold after_NewChild.
  destruct (ctxtree.NewChild parent s) as [[child s']|] eqn:E; [|done].
  by eapply wf_NewChild.
Qed.

Lemma wf_after_Close n s : wf s -> wf (after_Close n s).
Proof.
  intros Hwf. unfold after_Close.
  destruct (ctxtree.Close n s) as [s'|] eqn:E; [|done]. by eapply wf_Close.
Qed.

Lemma all_done_false s l :
  (exists ch, ch ∈ l /\ ctxtree.Done s ch = false) ->
  ctxtree.all_done s l = false.
Proof.
  intros (ch & Hin & Hch). unfold ctxtree.all_done.
  destruct (forallb (ctxtree.Done s) l) eqn:E; [|done].
  rewrite forallb_forall in E. apply list_elem_of_In in Hin.
  specialize (E ch Hin). congruence.
Qed.

Lemma all_done_true s l :
  (forall ch, ch ∈ l -> ctxtree.Done s ch = true) ->
  ctxtree.all_done s l = true.
Proof.
  intros H. unfold ctxtree.all_done. apply forallb_forall.
  intros x Hx. apply H. by apply list_elem_of_In.
Qed.

(** ** The Context a stream is bound to *)

Section bound_facts.
Implicit Types (s : state) (n : nat) (why : option error).

Lemma same_shape_refl ns : same_shape ns ns.
Proof. by intros i. Qed.

Lemma same_shape_trans ns1 ns2 ns3 :
  same_shape ns1 ns2 -> same_shape ns2 ns3 -> same_shape ns1 ns3.
Proof. intros H1 H2 i. by rewrite H2, H1. Qed.

Lemma same_shape_lookup ns ns' i c :
  same_shape ns ns' -> ns !! i = Some c ->
  exists c', ns' !! i = Some c' /\ shape c' = shape c.
Proof.
  intros H Hc. specialize (H i). rewrite Hc in H.
  destruct (ns' !! i) as [c'|]; simpl in H; [|done].
  exists c'. split; [done|congruence].
Qed.

Lemma same_shape_sym ns ns' : same_shape ns ns' -> same_shape ns' ns.
Proof. intros H i. by rewrite H. Qed.

Lemma same_shape_length ns ns' : same_shape ns ns' -> length ns' = length ns.
Proof.
  intros H.
  destruct (decide (length ns' = length ns)) as [|Hne]; [done|]. exfalso.
  destruct (decide (length ns' < length ns)%nat) as [Hlt|Hge].
  - specialize (H (length ns')).
    destruct (lookup_lt_is_Some_2 ns _ Hlt) as [c Hc].
    rewrite Hc, (lookup_ge_None_2 ns' (length ns')) in H by lia. done.
  - specialize (H (length ns)).
    destruct (lookup_lt_is_Some_2 ns' (length ns)) as [c Hc]; [lia|].
    rewrite Hc, (lookup_ge_None_2 ns (length ns)) in H by lia. done.
Qed.

Lemma shape_fields c c' :
  shape c' = shape c ->
  goContext c' = goContext c /\ cancel c' = cancel c /\
  children c' = children c /\ config c' = config c.
Proof. unfold shape. intros [= -> -> -> ->]. done. Qed.

Lemma same_shape_set_cause ns n why c :
  ns !! n = Some c -> same_shape ns (<[n := bound.set_cause why c]> ns).
Proof.
  intros Hc i. destruct (decide (i = n)) as [->|Hne].
  - rewrite list_lookup_insert_eq by (by eapply lookup_lt_Some). by rewrite Hc.
  - by rewrite list_lookup_insert_ne.
Qed.

(** [Done] and the loop over the children do not look at the causes. *)
Lemma Done_same_shape s s' n :
  stds s' = stds s -> same_shape (nodes s) (nodes s') ->
  ctxtree.Done s' n = ctxtree.Done s n.
Proof.
  intros Hs Hn. unfold ctxtree.Done. rewrite Hs. specialize (Hn n).
  destruct (nodes s' !! n) as [c'|], (nodes s !! n) as [c|]; simpl in Hn;
    try done.
  injection Hn as Hg _ _ _. by rewrite Hg.
Qed.

Lemma Err_same_shape s s' n :
  stds s' = stds s -> same_shape (nodes s) (nodes s') ->
  ctxtree.Err s' n = ctxtree.Err s n.
Proof.
  intros Hs Hn. unfold ctxtree.Err. rewrite Hs. specialize (Hn n).
  destruct (nodes s' !! n) as [c'|], (nodes s !! n) as [c|]; simpl in Hn;
    try done.
  injection Hn as Hg _ _ _. by rewrite Hg.
Qed.

Lemma all_done_same_shape s s' l :
  stds s' = stds s -> same_shape (nodes s) (nodes s') ->
  ctxtree.all_done s' l = ctxtree.all_done s l.
Proof.
  intros Hs Hn. unfold ctxtree.all_done. induction l as [|x l IH]; [done|].
  simpl. by rewrite IH, (Done_same_shape s s' x Hs Hn).
Qed.

Lemma wf_same_shape s s' :
  stds s' = stds s -> same_shape (nodes s) (nodes s') -> wf s -> wf s'.
Proof.
  intros Hs Hn [Hstd Hnodes]. split; [by rewrite Hs|].
  intros n c' Hc'.
  destruct (same_shape_lookup _ _ n c' (same_shape_sym _ _ Hn) Hc')
    as (c & Hc & Hsh).
  apply shape_fields in Hsh as (Hg & Hcan & _ & _).
  destruct (Hnodes n c Hc) as [Hlen Hk]. unfold wf_node. rewrite Hs.
  rewrite <- Hg, <- Hcan. split; [done|].
  destruct (cancel c) as [k|k p]; [done|].
  destruct Hk as (-> & Hp & pc & kc & Hpc & Hkc & Hpar).
  split; [done|]. split; [done|].
  destruct (same_shape_lookup _ _ p pc Hn Hpc) as (pc' & Hpc' & Hsh').
  apply shape_fields in Hsh' as (Hg' & _).
  exists pc', kc. by rewrite Hg'.
Qed.

Lemma mark_done_frame n why c s :
  nodes s !! n = Some c ->
  stds (bound.mark_done n why c s) = std.cancel Canceled (goContext c) (stds s) /\
  same_shape (nodes s) (nodes (bound.mark_done n why c s)) /\
  chans (bound.mark_done n why c s) = chans s /\
  now (bound.mark_done n why c s) = now s /\
  DefaultConfig (bound.mark_done n why c s) = DefaultConfig s.
Proof.
  intros Hc. unfold bound.mark_done. simpl. repeat split.
  by apply same_shape_set_cause.
Qed.

(** [mark_done] is a cancel of the node's standard context, up to the
    cause. *)
Lemma mark_done_Done n why c s m :
  nodes s !! n = Some c ->
  ctxtree.Done (bound.mark_done n why c s) m
  = ctxtree.Done (std_cancel (goContext c) s) m.
Proof.
  intros Hc. apply Done_same_shape; [done|].
  simpl. by apply same_shape_set_cause.
Qed.

Lemma wf_mark_done n why c s :
  nodes s !! n = Some c -> wf s -> wf (bound.mark_done n why c s).
Proof.
  intros Hc Hwf.
  apply (wf_same_shape (std_cancel (goContext c) s)); [done| |].
  - simpl. by apply same_shape_set_cause.
  - by apply wf_std_cancel_state.
Qed.

Lemma bound_Close_fuel_frame fuel n why s s' :
  bound.Close_fuel fuel n why s = Some s' ->
  same_shape (nodes s) (nodes s') /\ chans s' = chans s /\ now s' = now s /\
  DefaultConfig s' = DefaultConfig s /\ length (stds s') = length (stds s).
Proof.
  revert n why s. induction fuel as [|f IH]; intros n why s; simpl; [done|].
  destruct (nodes s !! n) as [c|] eqn:Hc; [|done].
  destruct (ctxtree.Done s n).
  { intros [= <-]. split; [apply same_shape_refl|done]. }
  destruct (ctxtree.all_done s (children c)).
  2:{ intros [= <-]. split; [apply same_shape_refl|done]. }
  destruct (mark_done_frame n why c s Hc) as (Hs & Hsh & Hch & Hnow & Hcfg).
  assert (Hlen : length (stds (bound.mark_done n why c s)) = length (stds s)).
  { rewrite Hs. apply cancel_length. }
  destruct (cancel c) as [k|k p].
  - intros [= <-]. done.
  - intros H. apply IH in H as (Hsh' & Hch' & Hnow' & Hcfg' & Hlen').
    split; [by eapply same_shape_trans|]. repeat split; congruence.
Qed.

Lemma bound_Close_fuel_Done_mono fuel n why s s' m :
  bound.Close_fuel fuel n why s = Some s' ->
  ctxtree.Done s m = true -> ctxtree.Done s' m = true.
Proof.
  revert n why s. induction fuel as [|f IH]; intros n why s; simpl; [done|].
  destruct (nodes s !! n) as [c|] eqn:Hc; [|done].
  destruct (ctxtree.Done s n); [by intros [= <-]|].
  destruct (ctxtree.all_done s (children c)); [|by intros [= <-]].
  assert (Hm : ctxtree.Done s m = true ->
               ctxtree.Done (bound.mark_done n why c s) m = true).
  { intros H. rewrite (mark_done_Done n why c s m Hc).
    by apply Done_std_cancel_mono. }
  destruct (cancel c) as [k|k p].
  - intros [= <-]. exact Hm.
  - intros H Hd. eapply IH; [exact H|]. by apply Hm.
Qed.

Lemma bound_Close_fuel_wf fuel n why s s' :
  bound.Close_fuel fuel n why s = Some s' -> wf s -> wf s'.
Proof.
  revert n why s. induction fuel as [|f IH]; intros n why s; simpl; [done|].
  destruct (nodes s !! n) as [c|] eqn:Hc; [|done].
  destruct (ctxtree.Done s n); [by intros [= <-]|].
  destruct (ctxtree.all_done s (children c)); [|by intros [= <-]].
  destruct (cancel c) as [k|k p].
  - intros [= <-]. by apply wf_mark_done.
  - intros H Hwf. eapply IH; [exact H|]. by apply wf_mark_done.
Qed.

Lemma bound_Close_fuel_total fuel n why s :
  wf s -> (n < length (nodes s))%nat -> (n < fuel)%nat ->
  is_Some (bound.Close_fuel fuel n why s).
Proof.
  revert n why s. induction fuel as [|f IH]; intros n why s Hwf Hn Hf; [lia|].
  simpl. destruct (lookup_lt_is_Some_2 _ _ Hn) as [c Hc]. rewrite Hc.
  destruct (ctxtree.Done s n); [by eauto|].
  destruct (ctxtree.all_done s (children c)); [|by eauto].
  destruct (cancel c) as [k|k p] eqn:Ek; [by eauto|].
  pose proof Hwf as [Hs Hnodes]. destruct (Hnodes n c Hc) as [_ Hk].
  rewrite Ek in Hk. destruct Hk as (_ & Hp & _).
  apply IH.
  - by apply wf_mark_done.
  - simpl. rewrite length_insert. lia.
  - lia.
Qed.

Lemma bound_Close_total n why s :
  wf s -> (n < length (nodes s))%nat -> is_Some (bound.Close n why s).
Proof. intros. apply bound_Close_fuel_total; [done|done|lia]. Qed.

(** With a child that is not done, or on a node that is done, [Close] does
    nothing. *)
Lemma bound_Close_with_open_child s n why c :
  nodes s !! n = Some c ->
  (exists ch, ch ∈ children c /\ ctxtree.Done s ch = false) ->
  bound.Close n why s = Some s.
Proof.
  intros Hc H. unfold bound.Close. simpl. rewrite Hc.
  destruct (ctxtree.Done s n); [done|]. by rewrite (all_done_false _ _ H).
Qed.

Lemma bound_Close_on_done s n why :
  (n < length (nodes s))%nat -> ctxtree.Done s n = true ->
  bound.Close n why s = Some s.
Proof.
  intros Hn Hd. unfold bound.Close. simpl.
  destruct (lookup_lt_is_Some_2 _ _ Hn) as [c Hc]. by rewrite Hc, Hd.
Qed.

(** The climb only rewrites the node it starts from and nodes above it. *)
Lemma bound_Close_fuel_below fuel n why s s' m :
  wf s -> bound.Close_fuel fuel n why s = Some s' -> (n < m)%nat ->
  nodes s' !! m = nodes s !! m.
Proof.
  revert n why s. induction fuel as [|f IH]; intros n why s Hwf; simpl; [done|].
  destruct (nodes s !! n) as [c|] eqn:Hc; [|done].
  destruct (ctxtree.Done s n); [by intros [= <-]|].
  destruct (ctxtree.all_done s (children c)); [|by intros [= <-]].
  assert (Hm : (n < m)%nat -> nodes (bound.mark_done n why c s) !! m = nodes s !! m).
  { intros Hlt. simpl. rewrite list_lookup_insert_ne by lia. done. }
  destruct (cancel c) as [k|k p] eqn:Ek.
  - intros [= <-] Hlt. by apply Hm.
  - intros H Hlt. pose proof Hwf as [_ Hnodes].
    destruct (Hnodes n c Hc) as [_ Hk]. rewrite Ek in Hk.
    destruct Hk as (_ & Hp & _).
    rewrite (IH p None _ (wf_mark_done n why c s Hc Hwf) H) by lia.
    by apply Hm.
Qed.

(** An open node whose children are done is closed, and its cause
    recorded. *)
Lemma bound_Close_fuel_more fuel fuel' n why s r :
  bound.Close_fuel fuel n why s = Some r -> (fuel <= fuel')%nat ->
  bound.Close_fuel fuel' n why s = Some r.
Proof.
  revert fuel' n why s. induction fuel as [|f IH]; intros fuel' n why s; [done|].
  destruct fuel' as [|f']; [lia|]. simpl.
  destruct (nodes s !! n) as [c|]; [|done].
  destruct (ctxtree.Done s n); [done|].
  destruct (ctxtree.all_done s (children c)); [|done].
  destruct (cancel c) as [k|k p]; [done|].
  intros H Hle. apply IH; [done|lia].
Qed.

(** [Close] of an open node whose children are done marks it done and
    calls on its parent, if it has one. *)
Lemma bound_Close_unfold n why s c :
  wf s -> nodes s !! n = Some c -> ctxtree.Done s n = false ->
  (forall ch, ch ∈ children c -> ctxtree.Done s ch = true) ->
  bound.Close n why s =
  match cancel c with
  | stdCancel _ => Some (bound.mark_done n why c s)
  | cancelWithPropagation _ p => bound.Close p None (bound.mark_done n why c s)
  end.
Proof.
  intros Hwf Hc Hopen Hall. unfold bound.Close at 1. simpl.
  rewrite Hc, Hopen, (all_done_true _ _ Hall).
  destruct (cancel c) as [k|k p] eqn:Ek; [done|].
  pose proof Hwf as [_ Hnodes]. destruct (Hnodes n c Hc) as [_ Hk].
  rewrite Ek in Hk. destruct Hk as (_ & Hp & pc & _ & Hpc & _).
  assert (Hlt : (p < length (nodes (bound.mark_done n why c s)))%nat).
  { simpl. rewrite length_insert. by eapply lookup_lt_Some. }
  destruct (bound_Close_total p None _ (wf_mark_done n why c s Hc Hwf) Hlt)
    as [r Hr].
  rewrite Hr. eapply bound_Close_fuel_more; [exact Hr|lia].
Qed.

Lemma cancel_self_Err e a cs k :
  cs !! a = Some k -> std.is_done k = false ->
  std.Err (std.cancel e a cs) (Some a) = Some e.
Proof.
  intros Hk Hopen. simpl. rewrite cancel_lookup, Hk. simpl.
  by rewrite descends_refl, Hopen.
Qed.

(** The error of the standard context stays through a [Close]. *)
Lemma bound_Close_fuel_Err_sticks fuel n why s s' m e :
  bound.Close_fuel fuel n why s = Some s' ->
  ctxtree.Err s m = Some e -> ctxtree.Err s' m = Some e.
Proof.
  revert n why s. induction fuel as [|f IH]; intros n why s; simpl; [done|].
  destruct (nodes s !! n) as [c|] eqn:Hc; [|done].
  destruct (ctxtree.Done s n); [by intros [= <-]|].
  destruct (ctxtree.all_done s (children c)); [|by intros [= <-]].
  assert (Hm : ctxtree.Err s m = Some e ->
               ctxtree.Err (bound.mark_done n why c s) m = Some e).
  { intros H. rewrite (Err_same_shape (std_cancel (goContext c) s)); [|done|].
    - by apply Err_std_cancel_sticks.
    - simpl. by apply same_shape_set_cause. }
  destruct (cancel c) as [k|k p].
  - intros [= <-]. exact Hm.
  - intros H He. eapply IH; [exact H|]. by apply Hm.
Qed.

Lemma bound_Close_with_children_done s n why c :
  wf s -> nodes s !! n = Some c -> ctxtree.Done s n = false ->
  (forall ch, ch ∈ children c -> ctxtree.Done s ch = true) ->
  exists s', bound.Close n why s = Some s' /\ ctxtree.Done s' n = true /\
             bound.Err s' n = why.
Proof.
  intros Hwf Hc Hopen Hall.
  assert (Hn : (n < length (nodes s))%nat) by by eapply lookup_lt_Some.
  destruct (bound_Close_total n why s Hwf Hn) as [s' Hs']. exists s'.
  split; [done|].
  assert (Hmark : ctxtree.Err (bound.mark_done n why c s) n = Some Canceled).
  { rewrite (Err_same_shape (std_cancel (goContext c) s)); [|done|].
    2:{ simpl. by apply same_shape_set_cause. }
    destruct Hwf as [_ Hnodes]. destruct (Hnodes n c Hc) as [Hlen _].
    destruct (lookup_lt_is_Some_2 _ _ Hlen) as [k Hk].
    unfold ctxtree.Err. cbn [std_cancel with_stds nodes stds]. rewrite Hc.
    apply (cancel_self_Err _ _ _ k Hk).
    unfold ctxtree.Done in Hopen. rewrite Hc in Hopen. unfold std.Done in Hopen.
    by rewrite Hk in Hopen. }
  assert (Hnode : nodes (bound.mark_done n why c s) !! n
                  = Some (bound.set_cause why c)).
  { simpl. by apply list_lookup_insert_eq. }
  assert (Hres : ctxtree.Err s' n = Some Canceled /\
                 nodes s' !! n = Some (bound.set_cause why c)).
  { unfold bound.Close in Hs'. simpl in Hs'.
    rewrite Hc, Hopen, (all_done_true _ _ Hall) in Hs'.
    destruct (cancel c) as [k|k p] eqn:Ek.
    - injection Hs' as <-. done.
    - pose proof Hwf as [_ Hnodes]. destruct (Hnodes n c Hc) as [_ Hk].
      rewrite Ek in Hk. destruct Hk as (_ & Hp & _). split.
      + eapply bound_Close_fuel_Err_sticks; [exact Hs'|exact Hmark].
      + rewrite (bound_Close_fuel_below _ _ _ _ _ n
                   (wf_mark_done n why c s Hc Hwf) Hs') by lia. exact Hnode. }
  destruct Hres as [He Hnd]. split.
  - apply Done_Err. by rewrite He.
  - unfold bound.Err. by rewrite Hnd, He.
Qed.

(** An error is reported by a done context only. *)
Lemma bound_Err_Done s n e : bound.Err s n = Some e -> ctxtree.Done s n = true.
Proof.
  unfold bound.Err. destruct (nodes s !! n) as [c|]; [|done].
  intros H. apply Done_Err. by destruct (ctxtree.Err s n).
Qed.

Lemma bound_Err_open s n : ctxtree.Done s n = false -> bound.Err s n = None.
Proof.
  intros Hd. destruct (bound.Err s n) as [e|] eqn:E; [|done].
  apply bound_Err_Done in E. congruence.
Qed.


(** A deadline that has closed a context is what it reports. *)
Lemma bound_Err_deadline s n :
  ctxtree.Err s n = Some DeadlineExceeded ->
  bound.Err s n = Some DeadlineExceeded.
Proof.
  intros He. unfold bound.Err. rewrite He.
  destruct (nodes s !! n) as [c|] eqn:Hc; [done|].
  unfold ctxtree.Err in He. by rewrite Hc in He.
Qed.


End bound_facts.

(** ** Reachable stores *)

Section reachable.
Implicit Types (s : state).

Lemma valid_ref_lt r s :
  valid_ref r s = true -> forall p, r = Some p -> (p < length (stds s))%nat.
Proof.
  intros H p ->. simpl in H. by apply bool_decide_eq_true in H.
Qed.

Lemma wf_chan_send ch x s : wf s -> wf (state_of (chan_send ch x s)).
Proof.
  intros Hwf. unfold chan_send. destruct (chans s !! ch) as [c|]; [|done].
  destruct (closed c); [done|]. destruct (has_room c); [|done].
  by apply wf_with_chans.
Qed.

Lemma wf_chan_recv ch s : wf s -> wf (state_of (chan_recv ch s)).
Proof.
  intros Hwf. unfold chan_recv. destruct (chans s !! ch) as [c|]; [|done].
  destruct (buf c); [by destruct (closed c)|]. by apply wf_with_chans.
Qed.

Lemma wf_chan_close ch s : wf s -> wf (state_of (chan_close ch s)).
Proof.
  intros Hwf. unfold chan_close. destruct (chans s !! ch) as [c|]; [|done].
  destruct (closed c); [done|]. by apply wf_with_chans.
Qed.

Lemma wf_stream_New ctx s : wf s -> wf (state_of (New ctx s)).
Proof.
  intros Hwf. unfold New. destruct (ctxtree.GetConfig s ctx) as [cfg|]; [|done].
  destruct (makechan_in_range (BufferSize cfg)); [|done]. by apply wf_with_chans.
Qed.

Lemma wf_write_under mid pick w x s :
  wf s -> wf (mid s) -> wf (state_of (write_under mid pick w x s)).
Proof.
  intros Hwf Hmid. unfold write_under.
  destruct (ctxtree.Done s (wctx w)); [done|]. unfold inner_select.
  destruct (_ && _).
  - pose proof (wf_chan_send (wch w) x _ Hmid) as H.
    by destruct (chan_send (wch w) x (mid s)).
  - by destruct (ctxtree.Done (mid s) (wctx w)).
Qed.

Lemma wf_Write_under env pick w items :
  (forall j t, wf t -> wf (env j t)) ->
  forall i s, wf s -> wf (state_of (Write_under env pick i w items s)).
Proof.
  intros Henv. induction items as [|x items IH]; intros i s Hwf; [done|].
  cbn [Write_under].
  pose proof (wf_write_under (env (2 * i + 1)%nat) (pick i) w x
                (env (2 * i)%nat s) (Henv _ _ Hwf)
                (Henv _ _ (Henv _ _ Hwf))) as H.
  destruct (write_under _ _ w x _) as [[e|] s'|s'|s']; try done.
  by apply IH.
Qed.

Lemma wf_writer_Close w err s : wf s -> wf (state_of (writer_Close w err s)).
Proof.
  intros Hwf. unfold writer_Close.
  destruct (bound.Close (wctx w) err s) as [s'|] eqn:E.
  - apply wf_chan_close. by eapply bound_Close_fuel_wf.
  - pose proof (wf_chan_close (wch w) s Hwf) as H.
    by destruct (chan_close (wch w) s).
Qed.

Lemma wf_reader_Close r err s :
  wf s -> wf (match reader_Close r err s with Some s' => s' | None => s end).
Proof.
  intros Hwf. unfold reader_Close.
  destruct (bound.Close (rctx r) err s) as [s'|] eqn:E; [|done].
  by eapply bound_Close_fuel_wf.
Qed.

Lemma wf_set_DefaultConfig cfg s : wf s -> wf (set_DefaultConfig cfg s).
Proof. intros [Hs Hn]. split; [done|]. intros n c Hc. by apply Hn. Qed.

Lemma wf_perform a s : wf s -> wf (perform a s).
Proof.
  intros Hwf. destruct a; simpl.
  - destruct (valid_ref r s) eqn:E; [|done].
    apply wf_std_WithCancel; [done|by apply valid_ref_lt].
  - destruct (valid_ref r s) eqn:E; [|done].
    apply wf_std_WithTimeout; [done|by apply valid_ref_lt].
  - by apply wf_std_cancel_state.
  - by apply wf_elapse.
  - destruct (valid_ref r s) eqn:E; [|done].
    apply wf_FromStdContext; [done|by apply valid_ref_lt].
  - by apply wf_after_NewChild.
  - by apply wf_after_Close.
  - by apply wf_stream_New.
  - by apply wf_Write_under.
  - by apply wf_chan_recv.
  - by apply wf_writer_Close.
  - by apply wf_reader_Close.
  - by apply wf_set_DefaultConfig.
Qed.

(** Every store a program can reach from the empty one is well-formed. *)
Lemma wf_run l : forall s, wf s -> wf (run l s).
Proof.
  induction l as [|a l IH]; intros s Hwf; [done|].
  simpl. apply IH. by apply wf_perform.
Qed.

Lemma wf_reachable l : wf (run l empty_state).
Proof. apply wf_run, wf_empty. Qed.

End reachable.

Lemma wf_ex_root : wf ex_root.
Proof. apply wf_New, wf_empty. Qed.

Lemma wf_ex_fork : wf ex_fork.
Proof. do 2 apply wf_after_NewChild. apply wf_ex_root. Qed.

Lemma call_cancel_marks_done n s c :
  wf s -> nodes s !! n = Some c ->
  exists s', call_cancel (cancel c) s = Some s' /\ ctxtree.Done s' n = true.
Proof.
  intros Hwf Hc. destruct Hwf as [Hs Hn]. destruct (Hn n c Hc) as [Hlen Hk].
  assert (Hd : ctxtree.Done (std_cancel (goContext c) s) n = true).
  { unfold ctxtree.Done. cbn [std_cancel with_stds nodes stds]. rewrite Hc.
    by apply cancel_self. }
  destruct (cancel c) as [k|k p] eqn:Ek; simpl.
  - subst k. eauto.
  - destruct Hk as (-> & Hp & pc & _ & Hpc & _).
    assert (Hwf' : wf (std_cancel (goContext c) s))
      by (apply wf_std_cancel_state; by split).
    assert (Hlt : (p < length (nodes (std_cancel (goContext c) s)))%nat).
    { simpl. by eapply lookup_lt_Some. }
    destruct (Close_total p _ Hwf' Hlt) as [r Hr]. exists r. split; [done|].
    eapply Close_fuel_Done_mono; [exact Hr|exact Hd].
Qed.

Lemma Close_with_open_child s n c :
  wf s -> nodes s !! n = Some c ->
  (exists ch, ch ∈ children c /\ ctxtree.Done s ch = false) ->
  ctxtree.Close n s = Some s.
Proof.
  intros Hwf Hc H. rewrite (Close_unfold n s c Hwf Hc).
  by rewrite (all_done_false _ _ H).
Qed.

Lemma Close_with_children_done s n c :
  wf s -> nodes s !! n = Some c ->
  (forall ch, ch ∈ children c -> ctxtree.Done s ch = true) ->
  exists s', ctxtree.Close n s = Some s' /\ ctxtree.Done s' n = true.
Proof.
  intros Hwf Hc H. rewrite (Close_unfold n s c Hwf Hc).
  rewrite (all_done_true _ _ H). by apply call_cancel_marks_done.
Qed.

(** C2.  [Close] is gated on the child set of the node as it is when [Close]
    runs: with a child that is not done, [Close] changes nothing (so an open
    node stays open); with every child done, and in particular with no
    child at all, that very [Close] leaves the node done. *)
Theorem Close_gated_on_children (s : state) (n : nat) (c : context) :
  wf s -> nodes s !! n = Some c ->
  ((exists ch, ch ∈ children c /\ ctxtree.Done s ch = false) ->
     ctxtree.Close n s = Some s) /\
  ((forall ch, ch ∈ children c -> ctxtree.Done s ch = true) ->
     exists s', ctxtree.Close n s = Some s' /\ ctxtree.Done s' n = true) /\
  (children c = [] ->
     exists s', ctxtree.Close n s = Some s' /\ ctxtree.Done s' n = true).
Proof.
  intros Hwf Hc. split; [|split].
  - by apply Close_with_open_child.
  - by apply Close_with_children_done.
  - intros Hnil. apply (Close_with_children_done s n c Hwf Hc).
    rewrite Hnil. intros ch Hch. by apply elem_of_nil in Hch.
Qed.

Lemma Close_gated_on_children_witness :
  ctxtree.Close 0 ex_fork = Some ex_fork /\
  exists s', ctxtree.Close 1 ex_fork = Some s' /\ ctxtree.Done s' 1%nat = true.
Proof.
  split.
  - apply (Close_gated_on_children ex_fork 0
             {| goContext := 0; cancel := stdCancel 0; children := [1; 2]%nat;
                config := initial_config; cause := None |}); [apply wf_ex_fork|reflexivity|].
    exists 1%nat. split; [by left|reflexivity].
  - apply (Close_gated_on_children ex_fork 1
             {| goContext := 1; cancel := cancelWithPropagation 1 0;
                children := []; config := initial_config; cause := None |});
      [apply wf_ex_fork|reflexivity|reflexivity].
Defined.

Lemma wf_ex_chain : wf ex_chain.
Proof.
  do 2 apply wf_after_NewChild. apply wf_FromStdContext.
  - apply wf_std_WithCancel; [apply wf_empty|intros p [=]].
  - intros p [= <-]. simpl. lia.
Qed.

Section descent.
Implicit Types (cs : list std.ctx).

Lemma descends_derives cs fuel a i :
  std.descends fuel cs a i = true -> derives cs a i.
Proof.
  revert i. induction fuel as [|f IH]; intros i; simpl.
  - destruct (decide (i = a)) as [->|]; [|done]. intros _. constructor.
  - destruct (decide (i = a)) as [->|Hne]; [intros _; constructor|].
    destruct (cs !! i) as [c|] eqn:Ec; [|done].
    destruct (std.parent c) as [p|] eqn:Ep; [|done].
    intros H. eapply derives_step; eauto.
Qed.

(** On a well-formed store any fuel from [i] on is enough for [descends]. *)
Lemma derives_descends cs a i :
  wf_std cs -> derives cs a i ->
  forall fuel, (i <= fuel)%nat -> std.descends fuel cs a i = true.
Proof.
  intros Hwf. induction 1 as [|i c p Hc Hp Hd IH]; intros fuel Hle.
  - apply descends_refl.
  - pose proof (Hwf i c p Hc Hp) as Hlt.
    destruct fuel as [|f]; [lia|]. simpl.
    destruct (decide (i = a)); [done|]. rewrite Hc, Hp. apply IH. lia.
Qed.

Lemma derives_trans cs a b i :
  derives cs a b -> derives cs b i -> derives cs a i.
Proof.
  intros Hab. induction 1 as [|i c p Hc Hp Hd IH]; [done|].
  eapply derives_step; eauto.
Qed.

(** The tree of nodes is mirrored by the standard contexts under it. *)
Lemma node_descends_derives s fuel a n ca cn :
  wf s -> nodes s !! a = Some ca -> nodes s !! n = Some cn ->
  node_descends fuel (nodes s) a n = true ->
  derives (stds s) (goContext ca) (goContext cn).
Proof.
  intros [Hs Hn] Ha. revert n cn.
  induction fuel as [|f IH]; intros n cn Hcn; simpl.
  - destruct (decide (n = a)) as [->|]; [|done]. intros _.
    assert (cn = ca) as -> by congruence. constructor.
  - destruct (decide (n = a)) as [->|Hne].
    + intros _. assert (cn = ca) as -> by congruence. constructor.
    + rewrite Hcn. unfold parent_of.
      destruct (cancel cn) as [k|k p] eqn:Ek; [done|]. intros H.
      destruct (Hn n cn Hcn) as [_ Hk]. rewrite Ek in Hk.
      destruct Hk as (-> & Hp & pc & kc & Hpc & Hkc & Hpar).
      eapply derives_step; [exact Hkc|exact Hpar|]. by eapply IH.
Qed.

End descent.

(** C9.  Cancelling a standard context [r] - the one a root was built from,
    or the one under any ancestor [a] - leaves every node [n] descending
    from [a] done at once, whatever the state of the children of [n]: the
    loop of [Close] over the children is not involved. *)
Theorem std_cancel_closes_descendants
    (s : state) (r a n : nat) (ca : context) (f1 f2 : nat) :
  wf s -> nodes s !! a = Some ca -> (n < length (nodes s))%nat ->
  std.descends f1 (stds s) r (goContext ca) = true ->
  node_descends f2 (nodes s) a n = true ->
  ctxtree.Done (std_cancel r s) n = true.
Proof.
  intros Hwf Ha Hn Hr Han.
  destruct (lookup_lt_is_Some_2 _ _ Hn) as [cn Hcn].
  pose proof (node_descends_derives s f2 a n ca cn Hwf Ha Hcn Han) as Hd.
  apply descends_derives in Hr.
  pose proof (derives_trans _ _ _ _ Hr Hd) as Hrn.
  destruct Hwf as [Hs Hnodes]. destruct (Hnodes n cn Hcn) as [Hlen _].
  unfold ctxtree.Done. cbn [std_cancel with_stds nodes stds]. rewrite Hcn.
  apply cancel_descendant; [done|].
  apply derives_descends; [done|done|lia].
Qed.

(** In [ex_chain] the child (node 1) has an open child (node 2), so its
    [Close] does nothing; cancelling the client's context closes it. *)
Lemma std_cancel_closes_descendants_witness :
  ctxtree.Done (std_cancel 0 ex_chain) 1 = true.
Proof.
  apply (std_cancel_closes_descendants ex_chain 0 0 1
           {| goContext := 1; cancel := stdCancel 1; children := [1%nat];
              config := initial_config; cause := None |} 1 1).
  - apply wf_ex_chain.
  - reflexivity.
  - simpl. lia.
  - reflexivity.
  - reflexivity.
Defined.

Example ex_chain_gated :
  ctxtree.Done ex_chain 1 = false /\ ctxtree.Done ex_chain 2 = false /\
  ctxtree.Close 1 ex_chain = Some ex_chain /\
  ctxtree.Done (std_cancel 0 ex_chain) 2 = true.
Proof. repeat split. Qed.



Example ex_fork_closes_bottom_up :
  ctxtree.Done (after_Close 1 ex_fork) 1 = true /\
  ctxtree.Done (after_Close 1 ex_fork) 0 = false /\
  ctxtree.Done (after_Close 2 (after_Close 1 ex_fork)) 0 = true /\
  ctxtree.Err (after_Close 2 (after_Close 1 ex_fork)) 0 = Some Canceled.
Proof. repeat split. Qed.

(** ** Streams *)

Section stream_facts.
Implicit Types (s : state) (w : writer) (c : chan).

Lemma Done_with_chans chs s n :
  ctxtree.Done (with_chans chs s) n = ctxtree.Done s n.
Proof. reflexivity. Qed.


Lemma inner_select_sends pick w x s c :
  chans s !! wch w = Some c -> closed c = false -> has_room c = true ->
  ctxtree.Done s (wctx w) = false ->
  inner_select pick w x s
  = Returns None (with_chans (<[wch w := enqueue x c]> (chans s)) s).
Proof.
  intros Hc Hcl Hroom Hd. unfold inner_select, send_ready, chan_send.
  rewrite Hc, Hcl, Hroom, Hd. reflexivity.
Qed.

Lemma inner_select_blocks pick w x s c :
  chans s !! wch w = Some c -> closed c = false -> has_room c = false ->
  ctxtree.Done s (wctx w) = false ->
  inner_select pick w x s = Blocks s.
Proof.
  intros Hc Hcl Hroom Hd. unfold inner_select, send_ready.
  rewrite Hc, Hcl, Hroom, Hd. reflexivity.
Qed.

(** The fail-fast branch of [write]. *)
Lemma write_under_done mid pick w x s :
  ctxtree.Done s (wctx w) = true ->
  write_under mid pick w x s = Returns (bound.Err s (wctx w)) s.
Proof. intros Hd. unfold write_under. by rewrite Hd. Qed.

(** On a context that reports an error, [Write] of one item or more
    returns it at once. *)
Lemma Write_on_done w y items s e :
  bound.Err s (wctx w) = Some e -> Write w (y :: items) s = Returns (Some e) s.
Proof.
  intros He. unfold Write. cbn [Write_under].
  rewrite (write_under_done _ _ _ _ _ (bound_Err_Done _ _ _ He)). by rewrite He.
Qed.

(** On a context that is done and reports none, [Write] goes through its
    items and returns nil; the state is as it was. *)
Lemma Write_on_graceful w items s :
  ctxtree.Done s (wctx w) = true -> bound.Err s (wctx w) = None ->
  forall i, Write_under (fun _ s => s) (fun _ => true) i w items s = Returns None s.
Proof.
  intros Hd He. induction items as [|x items IH]; intros i; [done|].
  cbn [Write_under]. rewrite (write_under_done _ _ _ _ _ Hd), He. apply IH.
Qed.

(** What [Write] of one item or more returns on a done context, and that it
    leaves the state as it was. *)
Lemma Write_on_done_returns_Err w y items s :
  ctxtree.Done s (wctx w) = true ->
  Write w (y :: items) s = Returns (bound.Err s (wctx w)) s.
Proof.
  intros Hd. destruct (bound.Err s (wctx w)) as [e|] eqn:He.
  - by apply Write_on_done.
  - by apply Write_on_graceful.
Qed.

Lemma Write_under_app env pick i w pre rest s :
  Write_under env pick i w (pre ++ rest) s =
  match Write_under env pick i w pre s with
  | Returns None s1 => Write_under env pick (i + length pre) w rest s1
  | o => o
  end.
Proof.
  revert i s. induction pre as [|x pre IH]; intros i s; simpl.
  - by rewrite Nat.add_0_r.
  - destruct (write_under _ _ w x _) as [[e|] s'|s'|s']; try done.
    rewrite IH. by replace (S i + length pre)%nat with (i + S (length pre))%nat by lia.
Qed.

(** With room for all of them and the context open throughout, every item
    is appended to the buffer, in order. *)
Lemma Write_under_enqueues_all env pick w items :
  keeps_chan (wch w) env -> keeps_open (wctx w) env ->
  forall i s c,
    chans s !! wch w = Some c -> closed c = false ->
    ctxtree.Done s (wctx w) = false ->
    Z.of_nat (length (buf c)) + Z.of_nat (length items) <= cap c ->
    exists s',
      Write_under env pick i w items s = Returns None s' /\
      chans s' !! wch w = Some (set_buf (buf c ++ items) c) /\
      ctxtree.Done s' (wctx w) = false.
Proof.
  intros Hch Hopen. induction items as [|x items IH]; intros i s c Hc Hcl Hd Hcap.
  - exists s. simpl. rewrite app_nil_r. destruct c; done.
  - cbn [Write_under]. simpl in Hcap.
    set (s0 := env (2 * i)%nat s).
    assert (Hc0 : chans s0 !! wch w = Some c) by (unfold s0; by rewrite Hch).
    assert (Hd0 : ctxtree.Done s0 (wctx w) = false) by by apply Hopen.
    unfold write_under. fold s0. rewrite Hd0.
    set (s1 := env (2 * i + 1)%nat s0).
    assert (Hc1 : chans s1 !! wch w = Some c) by (unfold s1; by rewrite Hch).
    assert (Hd1 : ctxtree.Done s1 (wctx w) = false) by by apply Hopen.
    assert (Hroom : has_room c = true).
    { unfold has_room. apply Z.ltb_lt. lia. }
    fold s1.
    rewrite (inner_select_sends _ w x s1 c Hc1 Hcl Hroom Hd1).
    destruct (IH (S i) (with_chans (<[wch w := enqueue x c]> (chans s1)) s1)
                (enqueue x c)) as (s' & HW & Hbuf & Hd').
    + simpl. apply list_lookup_insert_eq. by eapply lookup_lt_Some.
    + done.
    + done.
    + simpl. rewrite length_app. simpl. lia.
    + exists s'. split; [done|]. split; [|done].
      rewrite Hbuf. unfold set_buf. simpl. by rewrite <- app_assoc.
Qed.

(** A drainer receives what is in the buffer, in order, and then nothing
    more. *)
Lemma drain_buffer ch m : forall s c,
  chans s !! ch = Some c -> (length (buf c) <= m)%nat ->
  exists s',
    drain m ch s = (buf c, s') /\
    chans s' !! ch = Some (set_buf [] c) /\
    nodes s' = nodes s /\ stds s' = stds s.
Proof.
  induction m as [|m IH]; intros s c Hc Hm.
  - destruct c as [[|x l] k cl]; simpl in *; [|lia]. by exists s.
  - simpl. unfold chan_recv. rewrite Hc.
    destruct c as [[|x l] k cl]; simpl in *.
    + exists s. by destruct cl.
    + destruct (IH (with_chans (<[ch := dequeue (mkChan (x :: l) k cl)]> (chans s)) s)
                   (dequeue (mkChan (x :: l) k cl))) as (s' & Hdr & Hb & Hn & Hs).
      * simpl. apply list_lookup_insert_eq. by eapply lookup_lt_Some.
      * simpl. lia.
      * simpl in Hdr. rewrite Hdr. exists s'. done.
Qed.

End stream_facts.

(** C10.  [Write] with no items returns nil and leaves the state as it is,
    whatever the state of the context and whatever the other goroutines
    do. *)
Theorem Write_nothing (w : writer) (s : state) :
  Write w [] s = Returns None s /\
  forall env pick i, Write_under env pick i w [] s = Returns None s.
Proof. split; reflexivity. Qed.

(** C1.  [N] items written to a stream whose buffer has room for them,
    while nobody closes the context or touches the channel, are all
    accepted; a drainer of the matching Reader then receives the buffer's
    earlier content followed by exactly those items in the order written -
    on a fresh stream, exactly those items. *)
Theorem Write_then_Read_in_order
    (env : nat -> state -> state) (pick : nat -> bool)
    (r : reader) (w : writer) (items : list T) (s : state) (c : chan) (m : nat) :
  rch r = wch w ->
  keeps_chan (wch w) env -> keeps_open (wctx w) env ->
  chans s !! wch w = Some c -> closed c = false ->
  ctxtree.Done s (wctx w) = false ->
  Z.of_nat (length (buf c)) + Z.of_nat (length items) <= cap c ->
  (length (buf c) + length items <= m)%nat ->
  exists s' s'',
    Write_under env pick 0 w items s = Returns None s' /\
    drain m (Read r) s' = (buf c ++ items, s'').
Proof.
  intros Hr Hch Hopen Hc Hcl Hd Hcap Hm.
  destruct (Write_under_enqueues_all env pick w items Hch Hopen 0 s c Hc Hcl Hd Hcap)
    as (s' & HW & Hbuf & _).
  destruct (drain_buffer (wch w) m s' _ Hbuf) as (s'' & Hdr & _).
  { simpl. rewrite length_app. lia. }
  exists s', s''. split; [done|]. unfold Read. by rewrite Hr.
Qed.

Lemma Write_then_Read_in_order_witness :
  exists s' s'',
    Write ex_writer [IntVal 1; IntVal 2; IntVal 3] ex_stream = Returns None s' /\
    drain 5 (Read ex_reader) s' = ([IntVal 1; IntVal 2; IntVal 3], s'').
Proof.
  apply (Write_then_Read_in_order (fun _ s => s) (fun _ => true)
           ex_reader ex_writer [IntVal 1; IntVal 2; IntVal 3] ex_stream
           {| buf := []; cap := 1000; closed := false |} 5).
  - reflexivity.
  - intros j t. reflexivity.
  - intros j t H. exact H.
  - reflexivity.
  - reflexivity.
  - reflexivity.
  - simpl. lia.
  - simpl. lia.
Defined.

Section write_facts.
Implicit Types (s : state) (w : writer) (c : chan).




End write_facts.




Example Write_after_close_enqueues_nothing :
  Write ex_writer [IntVal 1; IntVal 2] (after_Close 0 ex_stream)
  = Returns (Some Canceled) (after_Close 0 ex_stream).
Proof. reflexivity. Qed.

Section close_facts.
Implicit Types (s : state) (w : writer) (c : chan).

Lemma chan_close_open ch s c :
  chans s !! ch = Some c -> closed c = false ->
  chan_close ch s = Returns tt (with_chans (<[ch := mark_closed c]> (chans s)) s).
Proof. intros Hc Hcl. unfold chan_close. by rewrite Hc, Hcl. Qed.

Lemma chan_close_closed ch s c :
  chans s !! ch = Some c -> closed c = true -> chan_close ch s = Panics s.
Proof. intros Hc Hcl. unfold chan_close. by rewrite Hc, Hcl. Qed.

(** [writer.Close] on an open channel: the context is asked to close, then
    the channel is closed. *)
Lemma writer_Close_open w err s c :
  wf s -> (wctx w < length (nodes s))%nat ->
  chans s !! wch w = Some c -> closed c = false ->
  exists s1,
    bound.Close (wctx w) err s = Some s1 /\
    writer_Close w err s
    = Returns tt (with_chans (<[wch w := mark_closed c]> (chans s1)) s1) /\
    chans s1 = chans s.
Proof.
  intros Hwf Hn Hc Hcl. destruct (bound_Close_total (wctx w) err s Hwf Hn) as [s1 Hs1].
  exists s1. split; [done|]. unfold writer_Close. rewrite Hs1.
  apply bound_Close_fuel_frame in Hs1 as (_ & Hch & _). split; [|done].
  apply chan_close_open; [by rewrite Hch|done].
Qed.

(** [writer.Close] on a closed channel: the context is asked to close, then
    closing the channel panics. *)
Lemma writer_Close_closed w err s c :
  wf s -> (wctx w < length (nodes s))%nat ->
  chans s !! wch w = Some c -> closed c = true ->
  exists s1,
    bound.Close (wctx w) err s = Some s1 /\
    writer_Close w err s = Panics s1 /\ chans s1 = chans s.
Proof.
  intros Hwf Hn Hc Hcl. destruct (bound_Close_total (wctx w) err s Hwf Hn) as [s1 Hs1].
  exists s1. split; [done|]. unfold writer_Close. rewrite Hs1.
  apply bound_Close_fuel_frame in Hs1 as (_ & Hch & _). split; [|done].
  eapply chan_close_closed; [by rewrite Hch|done].
Qed.

End close_facts.

(** C8.  [writer.Close] closes the channel whether or not the context
    closes.  When the context has an open child its [Close] does nothing:
    only the channel changes, and a drainer of the matching Reader gets what
    was buffered, then the closed-channel signal, while [Done] of an open
    context has not fired. *)
Theorem writer_Close_closes_channel_context_or_not
    (r : reader) (w : writer) (err : option error)
    (s : state) (cx : context) (k : chan) :
  wf s -> rch r = wch w -> rctx r = wctx w ->
  nodes s !! wctx w = Some cx ->
  chans s !! wch w = Some k -> closed k = false ->
  exists s',
    writer_Close w err s = Returns tt s' /\
    chans s' !! wch w = Some (mark_closed k) /\
    ((exists ch, ch ∈ children cx /\ ctxtree.Done s ch = false) ->
     s' = with_chans (<[wch w := mark_closed k]> (chans s)) s /\
     exists s'',
       drain (length (buf k)) (Read r) s' = (buf k, s'') /\
       chan_recv (Read r) s'' = Returns None s'' /\
       reader_Done r s'' = ctxtree.Done s (wctx w)).
Proof.
  intros Hwf Hr Hrc Hcx Hk Hcl.
  assert (Hn : (wctx w < length (nodes s))%nat) by by eapply lookup_lt_Some.
  destruct (writer_Close_open w err s k Hwf Hn Hk Hcl) as (s1 & HC & HW & Hch).
  eexists. split; [exact HW|]. split.
  { simpl. apply list_lookup_insert_eq. rewrite Hch. by eapply lookup_lt_Some. }
  intros Hopen.
  rewrite (bound_Close_with_open_child s (wctx w) err cx Hcx Hopen) in HC.
  injection HC as <-. split; [done|].
  set (s' := with_chans _ s).
  assert (Hk' : chans s' !! wch w = Some (mark_closed k)).
  { simpl. apply list_lookup_insert_eq. by eapply lookup_lt_Some. }
  destruct (drain_buffer (wch w) (length (buf k)) s' _ Hk')
    as (s'' & Hdr & Hb & Hnod & Hstd); [done|].
  exists s''. unfold Read. rewrite Hr. split; [exact Hdr|]. split.
  - unfold chan_recv. rewrite Hb. reflexivity.
  - unfold reader_Done, ctxtree.Done. rewrite Hrc, Hnod, Hstd. reflexivity.
Qed.

Lemma wf_ex_fork_stream : wf ex_fork_stream.
Proof. apply (wf_with_chans _ ex_fork), wf_ex_fork. Qed.

Lemma writer_Close_closes_channel_context_or_not_witness :
  exists s',
    writer_Close ex_writer None ex_fork_stream = Returns tt s' /\
    chans s' !! 0%nat = Some (mark_closed (mkChan [] 1000 false)) /\
    exists s'',
      drain 0 (Read ex_reader) s' = ([], s'') /\
      chan_recv (Read ex_reader) s'' = Returns None s'' /\
      reader_Done ex_reader s'' = false.
Proof.
  destruct (writer_Close_closes_channel_context_or_not ex_reader ex_writer None
              ex_fork_stream
              {| goContext := 0; cancel := stdCancel 0; children := [1; 2]%nat;
                 config := initial_config; cause := None |}
              (mkChan [] 1000 false))
    as (s' & HW & Hch & Hrest).
  - apply wf_ex_fork_stream.
  - reflexivity.
  - reflexivity.
  - reflexivity.
  - reflexivity.
  - reflexivity.
  - exists s'. split; [exact HW|]. split; [exact Hch|].
    apply Hrest. exists 1%nat. split; [by left|reflexivity].
Defined.

Lemma wf_ex_stream : wf ex_stream.
Proof. apply (wf_with_chans _ ex_root), wf_ex_root. Qed.

(** C4, as stated, fails: on [stream.Empty], whose writer was closed once,
    closing the writer again panics. *)
Lemma writer_Close_twice_panics :
  writer_Close ex_writer None ex_stream = Returns tt Empty /\
  writer_Close ex_writer None Empty = Panics Empty.
Proof. split; reflexivity. Qed.

(** C4, amended.  The first [writer.Close] closes the channel, after the
    context was asked to close.  There is no guard: any later
    [writer.Close] asks the context again and then panics on the closed
    channel, which stays closed with its content. *)
Theorem writer_Close_again_panics
    (w : writer) (err err' : option error) (s : state) (k : chan) :
  wf s -> (wctx w < length (nodes s))%nat ->
  chans s !! wch w = Some k -> closed k = false ->
  exists s1,
    writer_Close w err s = Returns tt s1 /\
    chans s1 !! wch w = Some (mark_closed k) /\
    (exists s2, writer_Close w err' s1 = Panics s2 /\ chans s2 = chans s1) /\
    forall t k',
      wf t -> (wctx w < length (nodes t))%nat ->
      chans t !! wch w = Some k' -> closed k' = true ->
      exists t', writer_Close w err' t = Panics t' /\ chans t' = chans t.
Proof.
  intros Hwf Hn Hk Hcl.
  assert (Hlater : forall t k',
      wf t -> (wctx w < length (nodes t))%nat ->
      chans t !! wch w = Some k' -> closed k' = true ->
      exists t', writer_Close w err' t = Panics t' /\ chans t' = chans t).
  { intros t k' Hwft Hnt Hk' Hcl'.
    destruct (writer_Close_closed w err' t k' Hwft Hnt Hk' Hcl')
      as (t' & _ & HW & Hch). by exists t'. }
  destruct (writer_Close_open w err s k Hwf Hn Hk Hcl) as (s1 & HC & HW & Hch).
  eexists. split; [exact HW|].
  assert (Hk1 : chans (with_chans (<[wch w := mark_closed k]> (chans s1)) s1)
                !! wch w = Some (mark_closed k)).
  { simpl. apply list_lookup_insert_eq. rewrite Hch. by eapply lookup_lt_Some. }
  split; [exact Hk1|]. split; [|exact Hlater].
  apply (Hlater _ (mark_closed k)); [| |exact Hk1|done].
  - apply wf_with_chans. by eapply bound_Close_fuel_wf.
  - simpl. apply bound_Close_fuel_frame in HC as (Hsh & _).
    by rewrite (same_shape_length _ _ Hsh).
Qed.

Lemma writer_Close_again_panics_witness :
  exists s1,
    writer_Close ex_writer None ex_stream = Returns tt s1 /\
    chans s1 !! 0%nat = Some (mark_closed (mkChan [] 1000 false)) /\
    (exists s2, writer_Close ex_writer (Some Canceled) s1 = Panics s2 /\
                chans s2 = chans s1) /\
    forall t k',
      wf t -> (0 < length (nodes t))%nat ->
      chans t !! 0%nat = Some k' -> closed k' = true ->
      exists t', writer_Close ex_writer (Some Canceled) t = Panics t' /\
                 chans t' = chans t.
Proof.
  apply (writer_Close_again_panics ex_writer None (Some Canceled) ex_stream
           (mkChan [] 1000 false)).
  - apply wf_ex_stream.
  - simpl. lia.
  - reflexivity.
  - reflexivity.
Defined.

(** C5, as stated, fails: the context is done and the Reader still delivers
    the buffered items. *)
Lemma Read_delivers_after_context_closed :
  ctxtree.Done ex_closed_with_items 0 = true /\
  fst (drain 2 (Read ex_reader) ex_closed_with_items) = [IntVal 1; IntVal 2].
Proof. split; reflexivity. Qed.

(** C5, amended.  Once the context is done, a [write] that starts afterwards
    returns the context's [Err()] - the recorded cause, nil after a
    graceful close - and enqueues nothing, and so does every [Write] of at
    least one item.  [Read] is the channel itself and is not gated on the
    context: what is in the buffer is still delivered, in order.  A [write]
    that took the [default] branch before the context closed, and finds
    room in the buffer, enqueues or aborts as the inner [select] picks; one
    parked on a full buffer aborts. *)
Theorem done_context_stops_new_writes_only
    (r : reader) (w : writer) (s : state) (k : chan) :
  rch r = wch w ->
  ctxtree.Done s (wctx w) = true -> chans s !! wch w = Some k ->
  (forall mid pick y,
      write_under mid pick w y s = Returns (bound.Err s (wctx w)) s) /\
  (forall y items, Write w (y :: items) s = Returns (bound.Err s (wctx w)) s) /\
  (exists s', drain (length (buf k)) (Read r) s = (buf k, s')) /\
  (forall s0 mid y,
      ctxtree.Done s0 (wctx w) = false -> mid s0 = s ->
      closed k = false -> has_room k = true ->
      write_under mid true w y s0
      = Returns None (with_chans (<[wch w := enqueue y k]> (chans s)) s) /\
      write_under mid false w y s0 = Returns (bound.Err s (wctx w)) s) /\
  (closed k = false -> has_room k = false ->
   forall pick y, inner_select pick w y s = Returns (bound.Err s (wctx w)) s).
Proof.
  intros Hr Hd Hk.
  split; [intros mid pick y; by apply write_under_done|].
  split; [intros y items; by apply Write_on_done_returns_Err|].
  split.
  { destruct (drain_buffer (wch w) (length (buf k)) s k Hk) as (s' & Hdr & _);
      [done|]. exists s'. unfold Read. by rewrite Hr. }
  split.
  - intros s0 mid y Hd0 Hmid Hcl Hroom. unfold write_under. rewrite Hd0, Hmid.
    unfold inner_select, send_ready, chan_send. rewrite Hk, Hcl, Hroom, Hd.
    split; reflexivity.
  - intros Hcl Hroom pick y. unfold inner_select, send_ready.
    by rewrite Hk, Hcl, Hroom, Hd.
Qed.

(** With room in the buffer ([ex_closed_with_items], closed after two
    items went in) and with a full buffer ([ex_full_closed]). *)
Lemma done_context_stops_new_writes_only_witness :
  ((forall mid pick y,
       write_under mid pick ex_writer y ex_closed_with_items
       = Returns (Some Canceled) ex_closed_with_items) /\
   (forall y items,
       Write ex_writer (y :: items) ex_closed_with_items
       = Returns (Some Canceled) ex_closed_with_items) /\
   (exists s', drain 2 (Read ex_reader) ex_closed_with_items
               = ([IntVal 1; IntVal 2], s')) /\
   (forall y,
       write_under (after_Close 0) true ex_writer y ex_two_written
       = Returns None
           (with_chans
              (<[0%nat := enqueue y (mkChan [IntVal 1; IntVal 2] 1000 false)]>
                 (chans ex_closed_with_items)) ex_closed_with_items) /\
       write_under (after_Close 0) false ex_writer y ex_two_written
       = Returns (Some Canceled) ex_closed_with_items)) /\
  (forall pick y, inner_select pick ex_writer y ex_full_closed
                  = Returns (Some Canceled) ex_full_closed).
Proof.
  split.
  - destruct (done_context_stops_new_writes_only ex_reader ex_writer
                ex_closed_with_items (mkChan [IntVal 1; IntVal 2] 1000 false)
                eq_refl eq_refl eq_refl) as (H1 & H2 & H3 & H4 & _).
    split; [exact H1|]. split; [exact H2|]. split; [exact H3|].
    intros y. apply (H4 ex_two_written (after_Close 0) y); reflexivity.
  - destruct (done_context_stops_new_writes_only ex_reader ex_writer
                ex_full_closed (mkChan (repeat (IntVal 0) 1000) 1000 false)
                eq_refl eq_refl eq_refl) as (_ & _ & _ & _ & H5).
    apply H5; reflexivity.
Defined.

(** The race itself: the context of [ex_two_written] is closed between the
    two [select]s of a [write]; the third item goes in all the same. *)
Example write_racing_with_close_may_deliver :
  write_under (after_Close 0) true ex_writer (IntVal 3) ex_two_written
  = Returns None
      (with_chans [mkChan [IntVal 1; IntVal 2; IntVal 3] 1000 false]
         ex_closed_with_items) /\
  write_under (after_Close 0) false ex_writer (IntVal 3) ex_two_written
  = Returns (Some Canceled) ex_closed_with_items.
Proof. split; reflexivity. Qed.

Section time_facts.
Implicit Types (s : state) (d : Z).

(** Time only reaches a node through a deadline of its standard context. *)
Lemma elapse_without_deadline s d n c k :
  nodes s !! n = Some c -> stds s !! goContext c = Some k ->
  std.deadline k = None ->
  ctxtree.Done (elapse d s) n = ctxtree.Done s n /\
  ctxtree.Err (elapse d s) n = ctxtree.Err s n.
Proof.
  intros Hc Hk Hdl. unfold ctxtree.Done, ctxtree.Err, elapse. cbn [nodes stds].
  rewrite Hc. unfold std.Done, std.Err, std.expire.
  rewrite list_lookup_fmap, Hk. simpl. by rewrite Hdl.
Qed.

Lemma New_lookup s :
  nodes (snd (ctxtree.New s)) !! fst (ctxtree.New s)
  = Some {| goContext := length (stds s); cancel := stdCancel (length (stds s));
            children := []; config := DefaultConfig s; cause := None |} /\
  stds (snd (ctxtree.New s)) !! length (stds s)
  = Some {| std.parent := None; std.err := None; std.deadline := None |}.
Proof.
  simpl. split.
  - rewrite lookup_app_r by lia. by rewrite Nat.sub_diag.
  - rewrite lookup_app_r by lia. by rewrite Nat.sub_diag.
Qed.

End time_facts.

(** C7, on the code.  The node of [New()] carries the package's
    [DefaultConfig], whose [Timeout] is 5s unless a client has reassigned
    the variable, and however much time passes it is not done and has no
    error: [FromStdContext] derives it with [WithCancel] and starts no
    timer, whatever the [Timeout].  So a [write] parked on the full buffer
    of [ex_full] stays parked. *)
Theorem New_context_never_times_out (s : state) (d : Z) :
  ctxtree.GetConfig (snd (ctxtree.New s)) (fst (ctxtree.New s))
    = Some (DefaultConfig s) /\
  Timeout (DefaultConfig empty_state) = 5000000000 /\
  ctxtree.Done (elapse d (snd (ctxtree.New s))) (fst (ctxtree.New s)) = false /\
  ctxtree.Err (elapse d (snd (ctxtree.New s))) (fst (ctxtree.New s)) = None /\
  Write ex_writer [IntVal 1] ex_full = Blocks ex_full /\
  forall pick, inner_select pick ex_writer (IntVal 1) (elapse d ex_full)
               = Blocks (elapse d ex_full).
Proof.
  destruct (New_lookup s) as [Hn Hk].
  destruct (elapse_without_deadline (snd (ctxtree.New s)) d _ _ _ Hn Hk eq_refl)
    as [HD HE].
  split; [|split; [|split; [|split; [|split]]]].
  - unfold ctxtree.GetConfig. by rewrite Hn.
  - reflexivity.
  - rewrite HD. unfold ctxtree.Done. rewrite Hn. unfold std.Done.
    cbn [goContext]. by rewrite Hk.
  - rewrite HE. unfold ctxtree.Err. rewrite Hn. unfold std.Err.
    cbn [goContext]. by rewrite Hk.
  - vm_compute. reflexivity.
  - intros pick.
    destruct (elapse_without_deadline ex_full d 0
                {| goContext := 0; cancel := stdCancel 0; children := [];
                   config := initial_config; cause := None |}
                {| std.parent := None; std.err := None; std.deadline := None |}
                eq_refl eq_refl eq_refl) as [HD' _].
    eapply inner_select_blocks.
    + reflexivity.
    + reflexivity.
    + vm_compute. reflexivity.
    + exact HD'.
Qed.

(** The timers of the standard package do work in the model: a root built
    on a client context with a timeout is closed, top-down, when it
    expires. *)
Example deadline_of_client_context_fires :
  ctxtree.Done ex_deadline 0 = false /\
  ctxtree.Done (elapse 9999999 ex_deadline) 0 = false /\
  ctxtree.Done (elapse 10000000 ex_deadline) 0 = true /\
  ctxtree.Err (elapse 10000000 ex_deadline) 0 = Some DeadlineExceeded.
Proof. repeat split. Qed.

(** * Further properties *)

(** ** A closed context stays closed *)

Section permanence.
Implicit Types (s : state) (n : nat) (e : error).

Lemma expire_Err_sticks now cs r e :
  std.Err cs r = Some e -> std.Err (std.expire now cs) r = Some e.
Proof.
  destruct r as [i|]; simpl; [|done]. unfold std.expire.
  rewrite list_lookup_fmap. destruct (cs !! i) as [c|]; simpl; [|done].
  intros H. destruct (std.deadline c); [|done].
  unfold std.is_done. rewrite H. by rewrite andb_false_r.
Qed.

Lemma Err_elapse_sticks d s n e :
  ctxtree.Err s n = Some e -> ctxtree.Err (elapse d s) n = Some e.
Proof.
  unfold ctxtree.Err. cbn [elapse nodes stds].
  destruct (nodes s !! n) as [c|]; [|done]. apply expire_Err_sticks.
Qed.

(** Appending standard contexts changes no existing one. *)
Lemma Err_snoc_stds s n e k :
  ctxtree.Err s n = Some e ->
  ctxtree.Err (with_stds (stds s ++ [k]) s) n = Some e.
Proof.
  unfold ctxtree.Err. cbn [with_stds nodes stds].
  destruct (nodes s !! n) as [c|]; [|done]. unfold std.Err.
  destruct (stds s !! goContext c) as [x|] eqn:E; [|done].
  by rewrite (lookup_app_l_Some _ _ _ _ E).
Qed.

Lemma Err_FromStdContext r s n e :
  ctxtree.Err s n = Some e ->
  ctxtree.Err (snd (ctxtree.FromStdContext r s)) n = Some e.
Proof.
  unfold ctxtree.Err. cbn [ctxtree.FromStdContext std.WithCancel snd nodes stds].
  destruct (nodes s !! n) as [c|] eqn:Ec; [|done].
  rewrite (lookup_app_l_Some _ _ _ _ Ec). unfold std.Err.
  destruct (stds s !! goContext c) as [x|] eqn:E; [|done].
  by rewrite (lookup_app_l_Some _ _ _ _ E).
Qed.

Lemma Err_NewChild parent s child s' n e :
  ctxtree.NewChild parent s = Some (child, s') ->
  ctxtree.Err s n = Some e -> ctxtree.Err s' n = Some e.
Proof.
  unfold ctxtree.NewChild. destruct (nodes s !! parent) as [p|] eqn:Ep; [|done].
  cbn [std.WithCancel]. intros [= <- <-]. unfold ctxtree.Err. cbn [nodes stds].
  destruct (nodes s !! n) as [c|] eqn:Ec; [|done].
  assert (Hn : exists c', <[parent:=ctxtree.add_child (length (nodes s)) p]>
             (nodes s ++ [ {| goContext := length (stds s);
                cancel := cancelWithPropagation (length (stds s)) parent;
                children := []; config := config p; cause := None |} ]) !! n = Some c'
             /\ goContext c' = goContext c).
  { destruct (decide (n = parent)) as [->|Hne].
    - exists (ctxtree.add_child (length (nodes s)) p). split.
      + apply list_lookup_insert_eq. rewrite length_app.
        apply lookup_lt_Some in Ep. simpl. lia.
      + simpl. congruence.
    - exists c. split; [|done]. rewrite list_lookup_insert_ne by done.
      by apply lookup_app_l_Some. }
  destruct Hn as (c' & -> & ->). unfold std.Err.
  destruct (stds s !! goContext c) as [x|] eqn:E; [|done].
  by rewrite (lookup_app_l_Some _ _ _ _ E).
Qed.

Lemma Close_fuel_Err_sticks fuel n s s' m e :
  ctxtree.Close_fuel fuel n s = Some s' ->
  ctxtree.Err s m = Some e -> ctxtree.Err s' m = Some e.
Proof.
  revert n s. induction fuel as [|f IH]; intros n s; simpl; [done|].
  destruct (nodes s !! n) as [c|]; [|done].
  destruct (ctxtree.all_done s (children c)).
  - destruct (cancel c) as [k|k p].
    + intros [= <-]. apply Err_std_cancel_sticks.
    + intros H Hm. eapply IH; [exact H|]. by apply Err_std_cancel_sticks.
  - by intros [= <-].
Qed.

Lemma Err_chan_outcome {A} (o : outcome A) s n :
  stds (state_of o) = stds s -> nodes (state_of o) = nodes s ->
  ctxtree.Err (state_of o) n = ctxtree.Err s n.
Proof. intros Hs Hn. unfold ctxtree.Err. by rewrite Hs, Hn. Qed.

Lemma chan_send_frame ch x s :
  stds (state_of (chan_send ch x s)) = stds s /\
  nodes (state_of (chan_send ch x s)) = nodes s.
Proof.
  unfold chan_send. destruct (chans s !! ch) as [c|]; [|done].
  destruct (closed c); [done|]. by destruct (has_room c).
Qed.

Lemma chan_recv_frame ch s :
  stds (state_of (chan_recv ch s)) = stds s /\
  nodes (state_of (chan_recv ch s)) = nodes s.
Proof.
  unfold chan_recv. destruct (chans s !! ch) as [c|]; [|done].
  destruct (buf c); [by destruct (closed c)|done].
Qed.

Lemma chan_close_frame ch s :
  stds (state_of (chan_close ch s)) = stds s /\
  nodes (state_of (chan_close ch s)) = nodes s.
Proof.
  unfold chan_close. destruct (chans s !! ch) as [c|]; [|done].
  by destruct (closed c).
Qed.

Lemma stream_New_frame ctx s :
  stds (state_of (New ctx s)) = stds s /\ nodes (state_of (New ctx s)) = nodes s.
Proof.
  unfold New. destruct (ctxtree.GetConfig s ctx) as [cfg|]; [|done].
  by destruct (makechan_in_range (BufferSize cfg)).
Qed.

Lemma write_frame pick w x s :
  stds (state_of (write pick w x s)) = stds s /\
  nodes (state_of (write pick w x s)) = nodes s.
Proof.
  unfold write, write_under. destruct (ctxtree.Done s (wctx w)); [done|].
  unfold inner_select. destruct (_ && _).
  - pose proof (chan_send_frame (wch w) x s) as H.
    by destruct (chan_send (wch w) x s).
  - by destruct (ctxtree.Done s (wctx w)).
Qed.

(** [Write] run alone only touches its channel. *)
Lemma Write_frame w items : forall i s,
  stds (state_of (Write_under (fun _ s => s) (fun _ => true) i w items s)) = stds s /\
  nodes (state_of (Write_under (fun _ s => s) (fun _ => true) i w items s)) = nodes s.
Proof.
  induction items as [|x items IH]; intros i s; [done|]. cbn [Write_under].
  pose proof (write_frame true w x s) as H. unfold write in H.
  destruct (write_under _ _ w x s) as [[e|] s'|s'|s']; try done.
  simpl in H. destruct H as [Hs Hn]. destruct (IH (S i) s') as [Hs' Hn'].
  split; congruence.
Qed.

Lemma Err_writer_Close w err s n e :
  ctxtree.Err s n = Some e ->
  ctxtree.Err (state_of (writer_Close w err s)) n = Some e.
Proof.
  intros He. unfold writer_Close.
  destruct (bound.Close (wctx w) err s) as [s'|] eqn:E.
  - destruct (chan_close_frame (wch w) s') as [Hs Hn].
    rewrite (Err_chan_outcome _ s' n Hs Hn).
    by eapply bound_Close_fuel_Err_sticks.
  - destruct (chan_close_frame (wch w) s) as [Hs Hn].
    assert (H : state_of (match chan_close (wch w) s with
                          | Returns _ s' => Panics s'
                          | other => other end)
                = state_of (chan_close (wch w) s))
      by by destruct (chan_close (wch w) s).
    rewrite H. by rewrite (Err_chan_outcome _ s n Hs Hn).
Qed.

Lemma Err_perform_sticks a s n e :
  ctxtree.Err s n = Some e -> ctxtree.Err (perform a s) n = Some e.
Proof.
  intros He. destruct a; cbn [perform].
  - destruct (valid_ref r s); [|done]. by apply Err_snoc_stds.
  - destruct (valid_ref r s); [|done]. by apply Err_snoc_stds.
  - by apply Err_std_cancel_sticks.
  - by apply Err_elapse_sticks.
  - destruct (valid_ref r s); [|done]. by apply Err_FromStdContext.
  - unfold after_NewChild.
    destruct (ctxtree.NewChild parent s) as [[child s']|] eqn:E; [|done].
    by eapply Err_NewChild.
  - unfold after_Close. destruct (ctxtree.Close n0 s) as [s'|] eqn:E; [|done].
    by eapply Close_fuel_Err_sticks.
  - destruct (stream_New_frame ctx s) as [Hs Hn].
    by rewrite (Err_chan_outcome _ s n Hs Hn).
  - unfold Write. destruct (Write_frame w items 0 s) as [Hs Hn].
    by rewrite (Err_chan_outcome _ s n Hs Hn).
  - destruct (chan_recv_frame ch s) as [Hs Hn].
    by rewrite (Err_chan_outcome _ s n Hs Hn).
  - by apply Err_writer_Close.
  - unfold reader_Close.
    destruct (bound.Close (rctx r) err s) as [s'|] eqn:E; [|done].
    by eapply bound_Close_fuel_Err_sticks.
  - done.
Qed.

Lemma Done_perform_sticks a s n :
  ctxtree.Done s n = true -> ctxtree.Done (perform a s) n = true.
Proof.
  intros Hd. destruct (proj1 (Done_Err s n) Hd) as [e He].
  apply Done_Err. rewrite (Err_perform_sticks a s n e He). by eauto.
Qed.

End permanence.

(** X1.  Once a context is done, no later call reopens it: after any
    sequence of calls - of the standard package, of context.go, of
    stream.go, with or without a cause - and any passage of time its
    [Done] is still ready. *)
Theorem closed_context_stays_closed (l : list action) (s : state) (n : nat) :
  ctxtree.Done s n = true -> ctxtree.Done (run l s) n = true.
Proof.
  revert s. induction l as [|a l IH]; intros s Hd; [done|].
  simpl. apply IH. by apply Done_perform_sticks.
Qed.

Lemma closed_context_stays_closed_witness :
  ctxtree.Done (run [ActNewChild 0; ActClose 0; ActStdCancel 0; ActElapse 7;
                     ActStreamNew 0; ActSetDefaultConfig ex_small_config;
                     ActReaderClose ex_reader (Some (Failure "boom"));
                     ActWriterClose ex_writer (Some DeadlineExceeded)]
                    (after_Close 0 ex_root)) 0 = true.
Proof.
  apply (closed_context_stays_closed _ (after_Close 0 ex_root) 0).
  reflexivity.
Defined.

(** ** Closing again *)

Section idempotence.
Implicit Types (cs : list std.ctx) (s : state).

Lemma descends_cancel e b cs fuel a i :
  std.descends fuel (std.cancel e b cs) a i = std.descends fuel cs a i.
Proof.
  revert i. induction fuel as [|f IH]; intros i; simpl; [done|].
  destruct (decide (i = a)); [done|].
  pose proof (cancel_parent e b cs i) as H.
  destruct (std.cancel e b cs !! i) as [c'|], (cs !! i) as [c|]; simpl in H;
    try done.
  injection H as ->. destruct (std.parent c); [apply IH|done].
Qed.

Lemma settled_after_cancel e a cs : settled (std.cancel e a cs) a.
Proof.
  intros i c Hc Hd. rewrite cancel_length, descends_cancel in Hd.
  rewrite cancel_lookup in Hc. destruct (cs !! i) as [c0|]; simpl in Hc; [|done].
  injection Hc as <-. rewrite Hd. simpl.
  destruct (std.is_done c0) eqn:E; simpl; [exact E|reflexivity].
Qed.

Lemma settled_cancel_mono e b cs a : settled cs a -> settled (std.cancel e b cs) a.
Proof.
  intros H i c Hc Hd. rewrite cancel_length, descends_cancel in Hd.
  rewrite cancel_lookup in Hc. destruct (cs !! i) as [c0|] eqn:E; simpl in Hc; [|done].
  injection Hc as <-. pose proof (H i c0 E Hd) as Hc0.
  rewrite Hc0, andb_false_r. exact Hc0.
Qed.

(** Cancelling what is settled changes nothing. *)
Lemma cancel_settled e a cs : settled cs a -> std.cancel e a cs = cs.
Proof.
  intros H. apply list_eq. intros i. rewrite cancel_lookup.
  destruct (cs !! i) as [c|] eqn:E; simpl; [|done].
  destruct (std.descends (length cs) cs a i) eqn:Hd; simpl; [|done].
  by rewrite (H i c E Hd).
Qed.

Lemma std_cancel_settled k s : settled (stds s) k -> std_cancel k s = s.
Proof.
  intros H. unfold std_cancel, with_stds. rewrite (cancel_settled _ _ _ H).
  by destruct s.
Qed.

Lemma Close_fuel_settled fuel n s s' a :
  ctxtree.Close_fuel fuel n s = Some s' ->
  settled (stds s) a -> settled (stds s') a.
Proof.
  revert n s. induction fuel as [|f IH]; intros n s; simpl; [done|].
  destruct (nodes s !! n) as [c|]; [|done].
  destruct (ctxtree.all_done s (children c)).
  - destruct (cancel c) as [k|k p].
    + intros [= <-]. simpl. apply settled_cancel_mono.
    + intros H Ha. eapply IH; [exact H|]. simpl. by apply settled_cancel_mono.
  - by intros [= <-].
Qed.

Lemma all_done_mono s s' l :
  (forall m, ctxtree.Done s m = true -> ctxtree.Done s' m = true) ->
  ctxtree.all_done s l = true -> ctxtree.all_done s' l = true.
Proof.
  intros Hm. unfold ctxtree.all_done. rewrite !forallb_forall.
  intros H x Hx. apply Hm. by apply H.
Qed.

Lemma Close_fuel_idempotent fuel : forall n s s',
  ctxtree.Close_fuel fuel n s = Some s' -> ctxtree.Close_fuel fuel n s' = Some s'.
Proof.
  induction fuel as [|f IH]; intros n s s' H; [done|].
  pose proof (Close_fuel_frame _ _ _ _ H) as (Hn & _).
  pose proof (fun m => Close_fuel_Done_mono _ _ _ _ m H) as Hmono.
  pose proof (fun a => Close_fuel_settled _ _ _ _ a H) as Hset.
  simpl in *. rewrite Hn.
  destruct (nodes s !! n) as [c|]; [|done].
  destruct (ctxtree.all_done s (children c)) eqn:Hall.
  - rewrite (all_done_mono s s' _ Hmono Hall).
    destruct (cancel c) as [k|k p].
    + injection H as <-. f_equal. apply std_cancel_settled.
      simpl. apply settled_after_cancel.
    + assert (Hk : settled (stds s') k).
      { eapply Close_fuel_settled; [exact H|]. simpl. apply settled_after_cancel. }
      rewrite (std_cancel_settled _ _ Hk). by eapply IH.
  - injection H as <-. by rewrite Hall.
Qed.

End idempotence.

(** X2.  [Close] is idempotent: whatever a [Close] has changed, the same
    [Close] called again on the result changes nothing more. *)
Theorem Close_twice_is_Close_once (n : nat) (s s' : state) :
  ctxtree.Close n s = Some s' -> ctxtree.Close n s' = Some s'.
Proof. apply Close_fuel_idempotent. Qed.

Lemma Close_twice_is_Close_once_witness :
  ctxtree.Close 2 (after_Close 2 (after_Close 1 ex_fork))
  = Some (after_Close 2 (after_Close 1 ex_fork)).
Proof.
  apply (Close_twice_is_Close_once 2 (after_Close 1 ex_fork)). reflexivity.
Defined.

(** ** What every reachable store looks like *)

Section store_invariant.
Implicit Types (s : state).

Lemma tree_inv_same_shape s s' :
  same_shape (nodes s) (nodes s') -> tree_inv s -> tree_inv s'.
Proof.
  intros Hsh (Hc & Hi & Hl).
  assert (Hback : forall n c', nodes s' !! n = Some c' ->
            exists c, nodes s !! n = Some c /\ goContext c' = goContext c /\
                      cancel c' = cancel c /\ children c' = children c /\
                      config c' = config c).
  { intros n c' H.
    destruct (same_shape_lookup _ _ n c' (same_shape_sym _ _ Hsh) H)
      as (c & Hc0 & Hs0).
    exists c. split; [done|]. symmetry in Hs0. by apply shape_fields in Hs0. }
  split; [|split].
  - intros n c' p pc' H Hp Hpc.
    destruct (Hback n c' H) as (c & H0 & _ & Hcan & _ & Hcfg).
    destruct (Hback p pc' Hpc) as (pc & Hpc0 & _ & _ & _ & Hcfg').
    rewrite Hcfg, Hcfg'. apply (Hc n c p pc H0); [|done].
    unfold parent_of in *. by rewrite <- Hcan.
  - intros n m cn cm Hn Hm Heq.
    destruct (Hback n cn Hn) as (cn0 & Hn0 & Hgn & _).
    destruct (Hback m cm Hm) as (cm0 & Hm0 & Hgm & _).
    eapply Hi; [exact Hn0|exact Hm0|congruence].
  - intros n c' ch H Hch.
    destruct (Hback n c' H) as (c & H0 & _ & _ & Hkids & _).
    rewrite Hkids in Hch. destruct (Hl n c ch H0 Hch) as (cc & Hcc & Hp).
    destruct (same_shape_lookup _ _ ch cc Hsh Hcc) as (cc' & Hcc' & Hs').
    exists cc'. split; [done|]. apply shape_fields in Hs' as (_ & Hcan & _).
    unfold parent_of in *. by rewrite Hcan.
Qed.

Lemma tree_inv_same_nodes s s' :
  nodes s' = nodes s -> tree_inv s -> tree_inv s'.
Proof.
  intros Hn. apply tree_inv_same_shape. rewrite Hn. apply same_shape_refl.
Qed.

Lemma tree_inv_FromStdContext r s :
  wf s -> tree_inv s -> tree_inv (snd (ctxtree.FromStdContext r s)).
Proof.
  intros [_ Hwf] (Hc & Hi & Hl).
  set (root := {| goContext := length (stds s);
                  cancel := stdCancel (length (stds s));
                  children := []; config := DefaultConfig s; cause := None |}).
  assert (Hnew : forall n c,
            (nodes s ++ [root]) !! n = Some c ->
            nodes s !! n = Some c \/ (n = length (nodes s) /\ c = root)).
  { intros n c H. destruct (decide (n < length (nodes s))%nat).
    - left. by rewrite lookup_app_l in H.
    - right. rewrite lookup_app_r in H by lia.
      destruct (n - length (nodes s))%nat eqn:E; simpl in H;
        [|by rewrite lookup_nil in H].
      injection H as <-. split; [lia|done]. }
  split; [|split]; simpl; fold root.
  - intros n c p pc H Hp Hpc. destruct (Hnew n c H) as [H'|[_ ->]]; [|done].
    destruct (Hnew p pc Hpc) as [Hpc'|[-> ->]]; [by eapply Hc|].
    destruct (Hwf n c H') as [_ Hw]. unfold parent_of in Hp.
    destruct (cancel c) as [|k p']; [done|]. injection Hp as ->.
    destruct Hw as (_ & Hlt & _). apply lookup_lt_Some in H'. lia.
  - intros n m cn cm Hn Hm Heq.
    destruct (Hnew n cn Hn) as [Hn'|[-> ->]], (Hnew m cm Hm) as [Hm'|[-> ->]].
    + by eapply Hi.
    + destruct (Hwf n cn Hn') as [Hlt _]. simpl in Heq. lia.
    + destruct (Hwf m cm Hm') as [Hlt _]. simpl in Heq. lia.
    + done.
  - intros n c ch H Hch. destruct (Hnew n c H) as [H'|[_ ->]].
    + destruct (Hl n c ch H' Hch) as (cc & Hcc & Hp). exists cc.
      split; [|done]. by apply lookup_app_l_Some.
    + by apply elem_of_nil in Hch.
Qed.

Lemma tree_inv_NewChild parent s child s' :
  wf s -> tree_inv s -> ctxtree.NewChild parent s = Some (child, s') ->
  tree_inv s'.
Proof.
  intros [_ Hwf] (Hc & Hi & Hl). unfold ctxtree.NewChild.
  destruct (nodes s !! parent) as [p|] eqn:Ep; [|done].
  cbn [std.WithCancel]. intros [= <- <-].
  set (ch0 := {| goContext := length (stds s);
                 cancel := cancelWithPropagation (length (stds s)) parent;
                 children := []; config := config p; cause := None |}).
  assert (Hplt : (parent < length (nodes s))%nat) by by eapply lookup_lt_Some.
  assert (Hold : forall n c, nodes s !! n = Some c ->
            exists c', <[parent := ctxtree.add_child (length (nodes s)) p]>
                         (nodes s ++ [ch0]) !! n = Some c' /\
                       goContext c' = goContext c /\ cancel c' = cancel c /\
                       config c' = config c).
  { intros n c H. destruct (decide (n = parent)) as [->|Hne].
    - exists (ctxtree.add_child (length (nodes s)) p).
      rewrite list_lookup_insert_eq by (rewrite length_app; simpl; lia).
      assert (c = p) as -> by congruence. done.
    - exists c. rewrite list_lookup_insert_ne by done.
      by rewrite (lookup_app_l_Some _ _ _ _ H). }
  assert (Hnew : forall n c,
            <[parent := ctxtree.add_child (length (nodes s)) p]>
              (nodes s ++ [ch0]) !! n = Some c ->
            (exists c0, nodes s !! n = Some c0 /\ goContext c = goContext c0 /\
                        cancel c = cancel c0 /\ config c = config c0 /\
                        (children c = children c0 \/
                         (n = parent /\ children c = children c0 ++ [length (nodes s)])))
            \/ (n = length (nodes s) /\ c = ch0)).
  { intros n c H. destruct (decide (n = parent)) as [->|Hne].
    - rewrite list_lookup_insert_eq in H by (rewrite length_app; simpl; lia).
      injection H as <-. left. exists p. simpl. by eauto 10.
    - rewrite list_lookup_insert_ne in H by done.
      destruct (decide (n < length (nodes s))%nat).
      + rewrite lookup_app_l in H by done. left. exists c. by eauto 10.
      + rewrite lookup_app_r in H by lia.
        destruct (n - length (nodes s))%nat eqn:E; simpl in H;
          [|by rewrite lookup_nil in H].
        injection H as <-. right. split; [lia|done]. }
  assert (Hch0 : <[parent := ctxtree.add_child (length (nodes s)) p]>
                   (nodes s ++ [ch0]) !! length (nodes s) = Some ch0).
  { rewrite list_lookup_insert_ne by lia. rewrite lookup_app_r by lia.
    by rewrite Nat.sub_diag. }
  split; [|split]; cbn [nodes].
  - intros n c q qc H Hq Hqc.
    destruct (Hnew q qc Hqc) as [(qc0 & Hqc0 & _ & _ & Hcfgq & _)|[-> ->]].
    + destruct (Hnew n c H) as [(c0 & H0 & _ & Hcan & Hcfg & _)|[_ ->]].
      * rewrite Hcfg, Hcfgq. apply (Hc n c0 q qc0 H0); [|done].
        unfold parent_of in *. by rewrite <- Hcan.
      * simpl in Hq. injection Hq as <-. simpl. rewrite Hcfgq. congruence.
    + destruct (Hnew n c H) as [(c0 & H0 & _ & Hcan & _)|[_ ->]].
      * destruct (Hwf n c0 H0) as [_ Hw]. unfold parent_of in Hq.
        rewrite Hcan in Hq.
        destruct (cancel c0) as [|k p']; [done|]. injection Hq as ->.
        destruct Hw as (_ & Hlt & _). apply lookup_lt_Some in H0. lia.
      * simpl in Hq. injection Hq as Hq. lia.
  - intros n m cn cm Hn Hm Heq.
    destruct (Hnew n cn Hn) as [(cn0 & Hn0 & Hgn & _)|[-> ->]],
             (Hnew m cm Hm) as [(cm0 & Hm0 & Hgm & _)|[-> ->]].
    + eapply Hi; [exact Hn0|exact Hm0|congruence].
    + destruct (Hwf n cn0 Hn0) as [Hlt _]. simpl in Heq. lia.
    + destruct (Hwf m cm0 Hm0) as [Hlt _]. simpl in Heq. lia.
    + done.
  - intros n c ch H Hch.
    assert (Holdlink : forall c0, nodes s !! n = Some c0 -> ch ∈ children c0 ->
              exists cc, <[parent := ctxtree.add_child (length (nodes s)) p]>
                           (nodes s ++ [ch0]) !! ch = Some cc /\
                         parent_of cc = Some n).
    { intros c0 H0 Hin. destruct (Hl n c0 ch H0 Hin) as (cc & Hcc & Hp).
      destruct (Hold ch cc Hcc) as (cc' & Hcc' & _ & Hcan & _).
      exists cc'. split; [done|]. unfold parent_of in *. by rewrite Hcan. }
    destruct (Hnew n c H) as [(c0 & H0 & _ & _ & _ & [Hsame|[-> Happ]])|[_ ->]].
    + rewrite Hsame in Hch. by eapply Holdlink.
    + rewrite Happ in Hch. apply elem_of_app in Hch as [Hin|Hin].
      * by eapply Holdlink.
      * apply list_elem_of_singleton in Hin as ->. by exists ch0.
    + by apply elem_of_nil in Hch.
Qed.

Lemma tree_inv_perform a s : wf s -> tree_inv s -> tree_inv (perform a s).
Proof.
  intros Hwf Ht. destruct a; cbn [perform].
  - destruct (valid_ref r s); done.
  - destruct (valid_ref r s); done.
  - done.
  - done.
  - destruct (valid_ref r s); [|done]. by apply tree_inv_FromStdContext.
  - unfold after_NewChild.
    destruct (ctxtree.NewChild parent s) as [[child s']|] eqn:E; [|done].
    by eapply tree_inv_NewChild.
  - unfold after_Close. destruct (ctxtree.Close n s) as [s'|] eqn:E; [|done].
    apply Close_fuel_frame in E as (Hn & _). by apply (tree_inv_same_nodes s).
  - apply (tree_inv_same_nodes s); [|done]. apply stream_New_frame.
  - apply (tree_inv_same_nodes s); [|done]. apply Write_frame.
  - apply (tree_inv_same_nodes s); [|done]. apply chan_recv_frame.
  - unfold writer_Close. destruct (bound.Close (wctx w) err s) as [s'|] eqn:E.
    + destruct (chan_close_frame (wch w) s') as [_ Hn].
      apply (tree_inv_same_nodes s'); [done|].
      apply bound_Close_fuel_frame in E as (Hsh & _).
      by apply (tree_inv_same_shape s).
    + destruct (chan_close_frame (wch w) s) as [_ Hn].
      apply (tree_inv_same_nodes s); [|done].
      by destruct (chan_close (wch w) s).
  - unfold reader_Close.
    destruct (bound.Close (rctx r) err s) as [s'|] eqn:E; [|done].
    apply bound_Close_fuel_frame in E as (Hsh & _).
    by apply (tree_inv_same_shape s).
  - done.
Qed.

Lemma store_inv_perform a s : store_inv s -> store_inv (perform a s).
Proof.
  intros (Hwf & Ht). split; [by apply wf_perform|]. by apply tree_inv_perform.
Qed.

Lemma store_inv_empty : store_inv empty_state.
Proof.
  split; [apply wf_empty|]. split; [|split].
  - intros n c p pc H. simpl in H. by rewrite lookup_nil in H.
  - intros n m cn cm H. simpl in H. by rewrite lookup_nil in H.
  - intros n c ch H. simpl in H. by rewrite lookup_nil in H.
Qed.

Lemma store_inv_run l : forall s, store_inv s -> store_inv (run l s).
Proof.
  induction l as [|a l IH]; intros s H; [done|].
  simpl. apply IH. by apply store_inv_perform.
Qed.

Lemma store_inv_reachable l : store_inv (run l empty_state).
Proof. apply store_inv_run, store_inv_empty. Qed.

End store_invariant.

(** X3.  The config of a tree is fixed at its root: in every store a
    program can reach, a child carries the config of its parent, whatever
    the package variable [DefaultConfig] has been set to since the root
    was made. *)
Theorem child_config_is_its_parents
    (l : list action) (n p : nat) (c pc : context) :
  nodes (run l empty_state) !! n = Some c -> parent_of c = Some p ->
  nodes (run l empty_state) !! p = Some pc ->
  config c = config pc.
Proof.
  intros Hc Hp Hpc. destruct (store_inv_reachable l) as (_ & Hcfg & _).
  by eapply Hcfg.
Qed.

(** A child made after [DefaultConfig] was reassigned still has the config
    of its root, and a root made afterwards has the new one. *)
Lemma child_config_is_its_parents_witness :
  config {| goContext := 1; cancel := cancelWithPropagation 1 0;
            children := []; config := initial_config; cause := None |}
  = config {| goContext := 0; cancel := stdCancel 0; children := [1%nat];
              config := initial_config; cause := None |}.
Proof.
  apply (child_config_is_its_parents
           [ActFromStdContext None; ActSetDefaultConfig ex_small_config;
            ActNewChild 0; ActFromStdContext None] 1 0);
    reflexivity.
Defined.

Example root_after_reassignment_has_new_config :
  ctxtree.GetConfig
    (run [ActFromStdContext None; ActSetDefaultConfig ex_small_config;
          ActNewChild 0; ActFromStdContext None] empty_state) 2
  = Some ex_small_config.
Proof. reflexivity. Qed.

(** ** Children and their parent *)

Section siblings.
Implicit Types (cs : list std.ctx) (s : state).

(** A context is never older than one it derives from. *)
Lemma descends_le cs fuel a i :
  wf_std cs -> std.descends fuel cs a i = true -> (a <= i)%nat.
Proof.
  intros Hwf. revert i. induction fuel as [|f IH]; intros i; simpl.
  - destruct (decide (i = a)); [lia|done].
  - destruct (decide (i = a)); [lia|].
    destruct (cs !! i) as [c|] eqn:Ec; [|done].
    destruct (std.parent c) as [p|] eqn:Ep; [|done].
    intros H. apply IH in H. pose proof (Hwf i c p Ec Ep). lia.
Qed.

Lemma cancel_elsewhere e a cs i :
  std.descends (length cs) cs a i = false ->
  std.cancel e a cs !! i = cs !! i.
Proof.
  intros H. rewrite cancel_lookup, H. simpl. by destruct (cs !! i).
Qed.

Lemma Done_std_cancel_elsewhere k s n c :
  nodes s !! n = Some c ->
  std.descends (length (stds s)) (stds s) k (goContext c) = false ->
  ctxtree.Done (std_cancel k s) n = ctxtree.Done s n.
Proof.
  intros Hc Hd. unfold ctxtree.Done. cbn [std_cancel with_stds nodes stds].
  rewrite Hc. unfold std.Done. by rewrite (cancel_elsewhere _ _ _ _ Hd).
Qed.

(** The standard context of a child does not reach its parent's, nor that
    of another child of the same parent. *)
Lemma child_ctx_apart s n p c pc k :
  wf s -> ctx_injective s ->
  nodes s !! n = Some c -> cancel c = cancelWithPropagation k p ->
  nodes s !! p = Some pc ->
  std.descends (length (stds s)) (stds s) k (goContext pc) = false /\
  forall sib cc, sib <> n -> nodes s !! sib = Some cc -> parent_of cc = Some p ->
    std.descends (length (stds s)) (stds s) k (goContext cc) = false.
Proof.
  intros [Hs Hn] Hinj Hc Hk Hpc.
  destruct (Hn n c Hc) as [_ Hw]. rewrite Hk in Hw.
  destruct Hw as (-> & _ & pc' & kc & Hpc' & Hkc & Hpar).
  assert (pc' = pc) as -> by congruence.
  pose proof (Hs _ _ _ Hkc Hpar) as Hlt.
  assert (Hup : std.descends (length (stds s)) (stds s) (goContext c) (goContext pc)
                = false).
  { destruct (std.descends _ _ _ _) eqn:E; [|done].
    apply descends_le in E; [lia|done]. }
  split; [exact Hup|].
  intros sib cc Hne Hcc Hp. unfold parent_of in Hp.
  destruct (cancel cc) as [|ks p'] eqn:Eks; [done|]. injection Hp as ->.
  destruct (Hn sib cc Hcc) as [_ Hw]. rewrite Eks in Hw.
  destruct Hw as (-> & _ & pc2 & kcs & Hpc2 & Hkcs & Hpars).
  assert (pc2 = pc) as -> by congruence.
  assert (Hkne : goContext cc <> goContext c).
  { intros Heq. apply Hne. by eapply Hinj. }
  destruct (length (stds s)) as [|f] eqn:El.
  - simpl. by rewrite decide_False.
  - simpl. rewrite decide_False by done. rewrite Hkcs, Hpars.
    destruct (std.descends f (stds s) (goContext c) (goContext pc)) eqn:E; [|done].
    apply descends_le in E; [lia|done].
Qed.

End siblings.

(** X5.  A child whose own children are done closes on [Close].  Its parent
    is then asked to close: while another child of the parent is open the
    parent stays open and only the child has changed; when every other
    child is done, the parent is closed by that same call. *)
Theorem last_child_closes_parent
    (s : state) (n p k : nat) (c pc : context) :
  store_inv s ->
  nodes s !! n = Some c -> cancel c = cancelWithPropagation k p ->
  nodes s !! p = Some pc ->
  (forall ch, ch ∈ children c -> ctxtree.Done s ch = true) ->
  exists s',
    ctxtree.Close n s = Some s' /\ ctxtree.Done s' n = true /\
    ((exists sib, sib ∈ children pc /\ sib <> n /\ ctxtree.Done s sib = false) ->
     s' = std_cancel k s /\ ctxtree.Done s' p = ctxtree.Done s p) /\
    ((forall sib, sib ∈ children pc -> sib <> n -> ctxtree.Done s sib = true) ->
     ctxtree.Done s' p = true).
Proof.
  intros (Hwf & _ & Hinj & Hlink) Hc Hk Hpc Hall.
  assert (Hwf0 : wf (std_cancel k s)) by by apply wf_std_cancel_state.
  assert (Hn0 : ctxtree.Done (std_cancel k s) n = true).
  { destruct Hwf as [_ Hnodes]. destruct (Hnodes n c Hc) as [Hlen Hw].
    rewrite Hk in Hw. destruct Hw as (-> & _).
    unfold ctxtree.Done. cbn [std_cancel with_stds nodes stds]. rewrite Hc.
    by apply cancel_self. }
  assert (HC : ctxtree.Close n s = ctxtree.Close p (std_cancel k s)).
  { rewrite (Close_unfold n s c Hwf Hc), (all_done_true _ _ Hall). by rewrite Hk. }
  assert (Hplt : (p < length (nodes (std_cancel k s)))%nat).
  { simpl. by eapply lookup_lt_Some. }
  destruct (Close_total p _ Hwf0 Hplt) as [s' Hs'].
  exists s'. rewrite HC. split; [done|]. split.
  { eapply Close_fuel_Done_mono; [exact Hs'|exact Hn0]. }
  destruct (child_ctx_apart s n p c pc k Hwf Hinj Hc Hk Hpc) as [Hup Hsib].
  split.
  - intros (sib & Hin & Hne & Hopen).
    destruct (Hlink p pc sib Hpc Hin) as (cc & Hcc & Hpar).
    assert (Hsib0 : ctxtree.Done (std_cancel k s) sib = false).
    { rewrite (Done_std_cancel_elsewhere k s sib cc Hcc); [done|].
      by eapply Hsib. }
    assert (Hnoop : ctxtree.Close p (std_cancel k s) = Some (std_cancel k s)).
    { apply (Close_with_open_child _ p pc Hwf0 Hpc). by exists sib. }
    rewrite Hnoop in Hs'. injection Hs' as <-. split; [done|].
    by apply (Done_std_cancel_elsewhere k s p pc).
  - intros Hothers.
    destruct (Close_with_children_done (std_cancel k s) p pc Hwf0 Hpc)
      as (s'' & Hs'' & Hd).
    + intros sib Hin. destruct (decide (sib = n)) as [->|Hne]; [done|].
      apply Done_std_cancel_mono. by apply Hothers.
    + congruence.
Qed.

Lemma last_child_closes_parent_witness :
  exists s',
    ctxtree.Close 1 ex_fork = Some s' /\ ctxtree.Done s' 1 = true /\
    s' = std_cancel 1 ex_fork /\ ctxtree.Done s' 0 = ctxtree.Done ex_fork 0.
Proof.
  destruct (last_child_closes_parent ex_fork 1 0 1
              {| goContext := 1; cancel := cancelWithPropagation 1 0;
                 children := []; config := initial_config; cause := None |}
              {| goContext := 0; cancel := stdCancel 0; children := [1; 2]%nat;
                 config := initial_config; cause := None |})
    as (s' & HC & Hd & Hopen & _).
  - apply (store_inv_reachable [ActFromStdContext None; ActNewChild 0; ActNewChild 0]).
  - reflexivity.
  - reflexivity.
  - reflexivity.
  - intros ch Hch. by apply elem_of_nil in Hch.
  - exists s'. split; [exact HC|]. split; [exact Hd|]. apply Hopen.
    exists 2%nat. split; [by right; left|]. split; [done|reflexivity].
Defined.

(** ** Shutdown reaches the root *)

Section path.
Implicit Types (s : state) (ns : list context).

Lemma on_path_from_parent ns n c p a :
  ns !! n = Some c -> parent_of c = Some p -> on_path ns p a -> on_path ns n a.
Proof.
  intros Hc Hp. induction 1 as [|a c' p' _ IH Hc' Hp'].
  - eapply on_path_up; [apply on_path_self|exact Hc|exact Hp].
  - eapply on_path_up; [exact IH|exact Hc'|exact Hp'].
Qed.

Lemma on_path_inv ns n a :
  on_path ns n a ->
  a = n \/ exists c p, ns !! n = Some c /\ parent_of c = Some p /\ on_path ns p a.
Proof.
  induction 1 as [|a c p _ IH Hc Hp]; [by left|]. right.
  destruct IH as [->|(c0 & p0 & Hc0 & Hp0 & Hpath)].
  - exists c, p. split; [done|]. split; [done|]. apply on_path_self.
  - exists c0, p0. split; [done|]. split; [done|].
    eapply on_path_up; [exact Hpath|exact Hc|exact Hp].
Qed.

Lemma parent_of_lt s n c p :
  wf s -> nodes s !! n = Some c -> parent_of c = Some p ->
  (p < n)%nat /\ exists k, cancel c = cancelWithPropagation k p.
Proof.
  intros [_ Hn] Hc Hp. destruct (Hn n c Hc) as [_ Hw]. unfold parent_of in Hp.
  destruct (cancel c) as [|k p'] eqn:E; [done|]. injection Hp as ->.
  destruct Hw as (_ & Hlt & _). split; [done|by exists k].
Qed.

Lemma on_path_le s n a : wf s -> on_path (nodes s) n a -> (a <= n)%nat.
Proof.
  intros Hwf. induction 1 as [|a c p _ IH Hc Hp]; [lia|].
  destruct (parent_of_lt s a c p Hwf Hc Hp). lia.
Qed.

Lemma Close_whole_path n : forall s,
  wf s -> children_linked s -> (n < length (nodes s))%nat ->
  (forall a ca ch, on_path (nodes s) n a -> nodes s !! a = Some ca ->
                   ch ∈ children ca ->
                   ctxtree.Done s ch = true \/ on_path (nodes s) n ch) ->
  exists s', ctxtree.Close n s = Some s' /\
             forall a, on_path (nodes s) n a -> ctxtree.Done s' a = true.
Proof.
  induction n as [n IH] using lt_wf_ind. intros s Hwf Hlink Hn H.
  destruct (lookup_lt_is_Some_2 _ _ Hn) as [c Hc].
  assert (Hall : forall ch, ch ∈ children c -> ctxtree.Done s ch = true).
  { intros ch Hch. destruct (H n c ch (on_path_self _ _) Hc Hch) as [Hd|Hp]; [done|].
    apply (on_path_le s) in Hp; [|done].
    destruct (Hlink n c ch Hc Hch) as (cc & Hcc & Hpar).
    destruct (parent_of_lt s ch cc n Hwf Hcc Hpar). lia. }
  rewrite (Close_unfold n s c Hwf Hc), (all_done_true _ _ Hall).
  assert (Hself : forall k, cancel c = stdCancel k \/
                            (exists p, cancel c = cancelWithPropagation k p) ->
                            ctxtree.Done (std_cancel k s) n = true).
  { intros k Hk. destruct Hwf as [_ Hnodes]. destruct (Hnodes n c Hc) as [Hlen Hw].
    assert (k = goContext c) as ->.
    { destruct Hk as [Hk|[p Hk]]; rewrite Hk in Hw; [done|by destruct Hw]. }
    unfold ctxtree.Done. cbn [std_cancel with_stds nodes stds]. rewrite Hc.
    by apply cancel_self. }
  destruct (cancel c) as [k|k p] eqn:Ek; simpl.
  - exists (std_cancel k s). split; [done|]. intros a Ha.
    apply on_path_inv in Ha as [->|(c0 & p0 & Hc0 & Hp0 & _)]; [by eauto|].
    assert (c0 = c) as -> by congruence. unfold parent_of in Hp0. by rewrite Ek in Hp0.
  - assert (Hpar : parent_of c = Some p) by (unfold parent_of; by rewrite Ek).
    destruct (parent_of_lt s n c p Hwf Hc Hpar) as [Hlt _].
    destruct (IH p Hlt (std_cancel k s)) as (s' & Hs' & Hdone).
    + by apply wf_std_cancel_state.
    + exact Hlink.
    + simpl. lia.
    + intros a ca ch Ha Hca Hch. simpl in *.
      destruct (H a ca ch (on_path_from_parent _ _ _ _ _ Hc Hpar Ha) Hca Hch)
        as [Hd|Hp].
      * left. by apply Done_std_cancel_mono.
      * apply on_path_inv in Hp as [->|(c0 & p0 & Hc0 & Hp0 & Hpath)].
        { left. apply Hself. right. by exists p. }
        right. assert (c0 = c) as -> by congruence.
        assert (p0 = p) as -> by congruence. done.
    + exists s'. split; [done|]. intros a Ha.
      apply on_path_inv in Ha as [->|(c0 & p0 & Hc0 & Hp0 & Hpath)].
      * eapply Close_fuel_Done_mono; [exact Hs'|]. apply Hself. right. by exists p.
      * assert (c0 = c) as -> by congruence.
        assert (p0 = p) as -> by congruence. by apply Hdone.
Qed.

End path.

(** X6.  Shutdown travels bottom-up to the root in one call: when, on the
    path from a node up to its root, every child that is not itself on the
    path is done, [Close] of that node leaves every node of the path
    done. *)
Theorem Close_closes_path_to_root (s : state) (n : nat) :
  store_inv s -> (n < length (nodes s))%nat ->
  (forall a ca ch, on_path (nodes s) n a -> nodes s !! a = Some ca ->
                   ch ∈ children ca ->
                   ctxtree.Done s ch = true \/ on_path (nodes s) n ch) ->
  exists s', ctxtree.Close n s = Some s' /\
             forall a, on_path (nodes s) n a -> ctxtree.Done s' a = true.
Proof.
  intros (Hwf & _ & _ & Hlink). by apply Close_whole_path.
Qed.

Lemma Close_closes_path_to_root_witness :
  exists s', ctxtree.Close 2 ex_pipeline = Some s' /\
             forall a, on_path (nodes ex_pipeline) 2 a -> ctxtree.Done s' a = true.
Proof.
  apply (Close_closes_path_to_root ex_pipeline 2).
  - apply store_inv_reachable.
  - simpl. lia.
  - intros a ca ch _ Hca Hch. right.
    assert (H1 : on_path (nodes ex_pipeline) 2 1).
    { eapply on_path_up; [apply on_path_self| |]; reflexivity. }
    destruct a as [|[|[|a]]]; simpl in Hca; try done; injection Hca as <-;
      simpl in Hch.
    + apply list_elem_of_singleton in Hch as ->. exact H1.
    + apply list_elem_of_singleton in Hch as ->. apply on_path_self.
    + by apply elem_of_nil in Hch.
Defined.

Example ex_pipeline_closes :
  ctxtree.Done (after_Close 2 ex_pipeline) 0 = true /\
  ctxtree.Done (after_Close 2 ex_pipeline) 1 = true /\
  ctxtree.Done (after_Close 1 ex_pipeline) 1 = false.
Proof. repeat split. Qed.

(** ** Readers and downstreams *)

Section downstream.
Implicit Types (s : state) (r : reader) (w : writer).

Lemma Done_of_Err s n e : ctxtree.Err s n = Some e -> ctxtree.Done s n = true.
Proof. intros H. apply Done_Err. by eauto. Qed.

(** What [NewChild] builds. *)
Lemma NewChild_shape parent s p :
  nodes s !! parent = Some p ->
  exists s',
    ctxtree.NewChild parent s = Some (length (nodes s), s') /\
    chans s' = chans s /\
    nodes s' !! length (nodes s)
      = Some {| goContext := length (stds s);
                cancel := cancelWithPropagation (length (stds s)) parent;
                children := []; config := config p; cause := None |} /\
    nodes s' !! parent = Some (ctxtree.add_child (length (nodes s)) p) /\
    stds s' = stds s ++ [ {| std.parent := Some (goContext p);
                             std.err := std.Err (stds s) (Some (goContext p));
                             std.deadline := std.Deadline (stds s) (Some (goContext p)) |} ].
Proof.
  intros Hp. unfold ctxtree.NewChild. rewrite Hp. cbn [std.WithCancel].
  assert (Hlt : (parent < length (nodes s))%nat) by by eapply lookup_lt_Some.
  eexists. split; [reflexivity|]. cbn [chans nodes stds]. split; [done|]. split.
  { rewrite list_lookup_insert_ne by lia. rewrite lookup_app_r by lia.
    by rewrite Nat.sub_diag. }
  split; [|done]. apply list_lookup_insert_eq. rewrite length_app. simpl. lia.
Qed.

(** A child is born in the state of its parent. *)
Lemma NewChild_born parent s p s' :
  wf s -> nodes s !! parent = Some p ->
  ctxtree.NewChild parent s = Some (length (nodes s), s') ->
  ctxtree.Err s' (length (nodes s)) = ctxtree.Err s parent /\
  ctxtree.Done s' (length (nodes s)) = ctxtree.Done s parent.
Proof.
  intros [_ Hn] Hp HN. destruct (NewChild_shape parent s p Hp)
    as (s0 & HN0 & _ & Hc & _ & Hstd).
  assert (s0 = s') as -> by congruence.
  unfold ctxtree.Err, ctxtree.Done. rewrite Hc, Hp, Hstd. cbn [goContext].
  unfold std.Err, std.Done. rewrite lookup_app_r by lia. rewrite Nat.sub_diag.
  cbn [lookup list_lookup]. simpl.
  destruct (stds s !! goContext p) as [k|]; [|done]. split; [done|].
  unfold std.is_done. simpl. done.
Qed.

(** What a [NewDownstream] that returns has built. *)
Lemma NewDownstream_returns r s p r' w' s' :
  nodes s !! rctx r = Some p ->
  NewDownstream r s = Returns (r', w') s' ->
  exists s0,
    ctxtree.NewChild (rctx r) s = Some (length (nodes s), s0) /\
    r' = {| rctx := length (nodes s); rch := length (chans s) |} /\
    w' = {| wctx := length (nodes s); wch := length (chans s) |} /\
    s' = with_chans (chans s ++ [mkChan [] (BufferSize (config p)) false]) s0.
Proof.
  intros Hp HN. unfold NewDownstream in HN.
  destruct (NewChild_shape (rctx r) s p Hp) as (s0 & HN0 & Hch & Hc & _).
  rewrite HN0 in HN. unfold New, ctxtree.GetConfig in HN. rewrite Hc in HN.
  cbn [fmap option_fmap option_map config] in HN.
  destruct (makechan_in_range (BufferSize (config p))); [|done].
  rewrite Hch in HN. injection HN as <- <- <-. by exists s0.
Qed.

(** The standard context of a new child is not above that of any node
    that was there. *)
Lemma Done_cancel_new_child s s0 parent n c :
  wf s -> wf s0 -> stds s0 = stds s ++ [ {| std.parent := Some parent;
                        std.err := std.Err (stds s) (Some parent);
                        std.deadline := std.Deadline (stds s) (Some parent) |} ] ->
  nodes s !! n = Some c -> forall c0, nodes s0 !! n = Some c0 ->
  goContext c0 = goContext c ->
  ctxtree.Done (std_cancel (length (stds s)) s0) n = ctxtree.Done s0 n.
Proof.
  intros Hwf Hwf0 Hstd Hc c0 Hc0 Hg.
  apply (Done_std_cancel_elsewhere _ s0 n c0 Hc0).
  destruct (std.descends _ _ _ _) eqn:E; [|done].
  apply descends_le in E; [|by destruct Hwf0].
  destruct Hwf as [_ Hnodes]. destruct (Hnodes n c Hc) as [Hlen _]. lia.
Qed.

End downstream.

(** X7.  [reader.Close(cause)] is the [Close] of the context and nothing
    else: no channel is closed or emptied by it.  When the context is open
    and has no open child it is closed with the cause, and from then on
    every [Write] of the matching Writer returns that cause - nil after a
    graceful close - enqueuing nothing. *)
Theorem reader_Close_never_touches_buffer
    (r : reader) (w : writer) (err : option error) (s : state) (c : context) :
  wf s -> wctx w = rctx r -> nodes s !! rctx r = Some c ->
  exists s',
    reader_Close r err s = Some s' /\ chans s' = chans s /\
    (ctxtree.Done s (rctx r) = false ->
     (forall ch, ch ∈ children c -> ctxtree.Done s ch = true) ->
     ctxtree.Done s' (rctx r) = true /\ bound.Err s' (rctx r) = err /\
     forall y items, Write w (y :: items) s' = Returns err s').
Proof.
  intros Hwf Hw Hc. unfold reader_Close.
  assert (Hlt : (rctx r < length (nodes s))%nat) by by eapply lookup_lt_Some.
  destruct (bound_Close_total (rctx r) err s Hwf Hlt) as [s' Hs'].
  exists s'. split; [done|].
  split; [by apply bound_Close_fuel_frame in Hs' as (_ & -> & _)|].
  intros Hopen Hall.
  destruct (bound_Close_with_children_done s (rctx r) err c Hwf Hc Hopen Hall)
    as (s'' & Hs'' & Hd & He).
  assert (s'' = s') as -> by congruence.
  split; [done|]. split; [done|]. intros y items.
  rewrite <- He at 1. rewrite <- Hw. apply Write_on_done_returns_Err.
  by rewrite Hw.
Qed.

Lemma reader_Close_never_touches_buffer_witness :
  exists s',
    reader_Close ex_reader (Some (Failure "boom")) ex_two_written = Some s' /\
    chans s' = chans ex_two_written /\
    ctxtree.Done s' 0 = true /\ bound.Err s' 0 = Some (Failure "boom") /\
    forall y items,
      Write ex_writer (y :: items) s' = Returns (Some (Failure "boom")) s'.
Proof.
  destruct (reader_Close_never_touches_buffer ex_reader ex_writer
              (Some (Failure "boom")) ex_two_written
              {| goContext := 0; cancel := stdCancel 0; children := [];
                 config := initial_config; cause := None |})
    as (s' & HC & Hch & Hrest).
  - apply (wf_with_chans _ ex_stream), wf_ex_stream.
  - reflexivity.
  - reflexivity.
  - exists s'. split; [exact HC|]. split; [exact Hch|]. apply Hrest.
    + reflexivity.
    + intros ch Hch'. by apply elem_of_nil in Hch'.
Defined.

(** X8.  A [NewDownstream] that returns has made a child of the reader's
    context and a fresh stream on it: reader and writer share the new,
    empty, open channel, whose capacity is the upstream's [BufferSize]; no
    existing channel has changed; the child is appended to the upstream's
    children, has the upstream's config and is born in the upstream's
    state.  While the downstream is open, closing the upstream - through
    its reader, with any cause, or by the [Close] of context.go - does
    nothing. *)
Theorem NewDownstream_spawns_gating_child
    (r r' : reader) (w' : writer) (s s' : state) (p : context) :
  wf s -> nodes s !! rctx r = Some p ->
  NewDownstream r s = Returns (r', w') s' ->
  r' = {| rctx := length (nodes s); rch := length (chans s) |} /\
  w' = {| wctx := length (nodes s); wch := length (chans s) |} /\
  chans s' = chans s ++ [mkChan [] (BufferSize (config p)) false] /\
  children <$> nodes s' !! rctx r = Some (children p ++ [length (nodes s)]) /\
  config <$> nodes s' !! length (nodes s) = Some (config p) /\
  ctxtree.Done s' (length (nodes s)) = ctxtree.Done s (rctx r) /\
  (ctxtree.Done s (rctx r) = false ->
   ctxtree.Close (rctx r) s' = Some s' /\
   forall err, reader_Close r err s' = Some s').
Proof.
  intros Hwf Hp HN.
  destruct (NewDownstream_returns r s p r' w' s' Hp HN)
    as (s0 & HN0 & -> & -> & ->).
  destruct (NewChild_shape (rctx r) s p Hp) as (s1 & HN1 & Hch & Hc & Hpar & Hstd).
  assert (s1 = s0) as -> by congruence.
  split; [done|]. split; [done|]. cbn [with_chans chans nodes].
  split; [done|]. split; [by rewrite Hpar|]. split; [by rewrite Hc|].
  destruct (NewChild_born (rctx r) s p s0 Hwf Hp HN0) as [_ Hborn].
  split; [exact Hborn|]. intros Hopen.
  assert (Hwf0 : wf s0) by by eapply wf_NewChild.
  assert (Hkid : exists ch, ch ∈ children (ctxtree.add_child (length (nodes s)) p) /\
                   ctxtree.Done (with_chans (chans s ++ [mkChan []
                     (BufferSize (config p)) false]) s0) ch = false).
  { exists (length (nodes s)). split.
    - simpl. apply elem_of_app. right. by apply list_elem_of_singleton.
    - change (ctxtree.Done s0 (length (nodes s)) = false). by rewrite Hborn. }
  split.
  - apply (Close_with_open_child (with_chans _ s0) (rctx r)
             (ctxtree.add_child (length (nodes s)) p));
      [by apply wf_with_chans|exact Hpar|exact Hkid].
  - intros err. unfold reader_Close.
    by apply (bound_Close_with_open_child (with_chans _ s0) (rctx r) err
                (ctxtree.add_child (length (nodes s)) p)).
Qed.

Lemma NewDownstream_spawns_gating_child_witness :
  {| rctx := 1; rch := 1 |} = {| rctx := 1; rch := 1 |} /\
  {| wctx := 1; wch := 1 |} = {| wctx := 1; wch := 1 |} /\
  chans (state_of (NewDownstream ex_reader ex_two_written))
  = chans ex_two_written ++ [mkChan [] 1000 false] /\
  children <$> nodes (state_of (NewDownstream ex_reader ex_two_written)) !! 0%nat
  = Some ([] ++ [1%nat]) /\
  config <$> nodes (state_of (NewDownstream ex_reader ex_two_written)) !! 1%nat
  = Some initial_config /\
  ctxtree.Done (state_of (NewDownstream ex_reader ex_two_written)) 1
  = ctxtree.Done ex_two_written 0 /\
  (ctxtree.Done ex_two_written 0 = false ->
   ctxtree.Close 0 (state_of (NewDownstream ex_reader ex_two_written))
   = Some (state_of (NewDownstream ex_reader ex_two_written)) /\
   forall err,
     reader_Close ex_reader err (state_of (NewDownstream ex_reader ex_two_written))
     = Some (state_of (NewDownstream ex_reader ex_two_written))).
Proof.
  apply (NewDownstream_spawns_gating_child ex_reader
           {| rctx := 1; rch := 1 |} {| wctx := 1; wch := 1 |} ex_two_written
           (state_of (NewDownstream ex_reader ex_two_written))
           {| goContext := 0; cancel := stdCancel 0; children := [];
              config := initial_config; cause := None |}).
  - apply (wf_with_chans _ ex_stream), wf_ex_stream.
  - reflexivity.
  - reflexivity.
Defined.



(** X10.  Closing the reader of a downstream, with any cause, closes the
    downstream's context and, when the upstream has no other open child,
    the upstream's context too, in the same call; no channel is touched. *)
Theorem downstream_Close_closes_idle_upstream
    (r r' : reader) (w' : writer) (err : option error) (s s1 : state)
    (p : context) :
  wf s -> nodes s !! rctx r = Some p ->
  (forall ch, ch ∈ children p -> ctxtree.Done s ch = true) ->
  NewDownstream r s = Returns (r', w') s1 ->
  exists s2,
    reader_Close r' err s1 = Some s2 /\
    ctxtree.Done s2 (rctx r') = true /\ ctxtree.Done s2 (rctx r) = true /\
    chans s2 = chans s1.
Proof.
  intros Hwf Hp Hall HN.
  destruct (NewDownstream_returns r s p r' w' s1 Hp HN)
    as (s0 & HN0 & -> & -> & ->).
  destruct (NewChild_shape (rctx r) s p Hp) as (s0' & HN1 & Hch & Hc & Hpar & Hstd).
  assert (s0' = s0) as -> by congruence.
  destruct (NewChild_born (rctx r) s p s0 Hwf Hp HN0) as [_ Hborn].
  set (s1 := with_chans _ s0).
  assert (Hwf1 : wf s1) by (apply wf_with_chans; by eapply wf_NewChild).
  set (child := length (nodes s)) in *.
  set (k := length (stds s)) in *.
  set (c0 := {| goContext := k; cancel := cancelWithPropagation k (rctx r);
                children := []; config := config p; cause := None |}) in *.
  assert (Hc' : nodes s1 !! child = Some c0) by exact Hc.
  assert (Hpar' : nodes s1 !! rctx r = Some (ctxtree.add_child child p))
    by exact Hpar.
  assert (Hold : forall n, ctxtree.Done s n = true -> ctxtree.Done s1 n = true).
  { intros n Hd. destruct (proj1 (Done_Err s n) Hd) as [e He].
    change (ctxtree.Done s0 n = true). apply (Done_of_Err _ _ e).
    by eapply Err_NewChild. }
  unfold reader_Close. cbn [rctx].
  assert (Hlt : (child < length (nodes s1))%nat) by by eapply lookup_lt_Some.
  destruct (ctxtree.Done s (rctx r)) eqn:Hup.
  { exists s1. rewrite (bound_Close_on_done s1 child err Hlt).
    - split; [done|]. split; [exact Hborn|]. split; [by apply Hold|done].
    - exact Hborn. }
  assert (Hopen : ctxtree.Done s1 child = false) by exact Hborn.
  rewrite (bound_Close_unfold child err s1 c0 Hwf1 Hc' Hopen).
  2:{ intros ch Hin. by apply elem_of_nil in Hin. }
  cbn [cancel c0].
  set (s1' := bound.mark_done child err c0 s1).
  assert (Hwf1' : wf s1') by by apply wf_mark_done.
  assert (Hne : rctx r <> child).
  { apply lookup_lt_Some in Hp. unfold child. lia. }
  assert (Hpar1 : nodes s1' !! rctx r = Some (ctxtree.add_child child p)).
  { unfold s1'. simpl. by rewrite list_lookup_insert_ne. }
  assert (Hchild : ctxtree.Done s1' child = true).
  { unfold s1'. rewrite (mark_done_Done child err c0 s1 child Hc').
    unfold ctxtree.Done. cbn [std_cancel with_stds nodes stds]. rewrite Hc'.
    cbn [goContext c0]. apply cancel_self. change (stds s1) with (stds s0).
    rewrite Hstd, length_app. simpl. unfold k. lia. }
  assert (Hpopen : ctxtree.Done s1' (rctx r) = false).
  { unfold s1'. rewrite (mark_done_Done child err c0 s1 (rctx r) Hc').
    cbn [goContext c0]. unfold k.
    rewrite (Done_cancel_new_child s s1 (goContext p) (rctx r) p Hwf Hwf1 Hstd Hp
               (ctxtree.add_child child p) Hpar' eq_refl).
    change (ctxtree.Done s0 (rctx r) = false).
    destruct (ctxtree.Done s0 (rctx r)) eqn:E; [|done].
    destruct (proj1 (Done_Err s0 (rctx r)) E) as [e He].
    unfold ctxtree.Err in He. rewrite Hpar in He. cbn [goContext ctxtree.add_child] in He.
    rewrite Hstd in He. unfold std.Err in He.
    destruct Hwf as [_ Hnodes]. destruct (Hnodes (rctx r) p Hp) as [Hlen _].
    rewrite lookup_app_l in He by done.
    unfold ctxtree.Done in Hup. rewrite Hp in Hup. unfold std.Done in Hup.
    destruct (stds s !! goContext p) as [kp|]; [|done].
    unfold std.is_done in Hup. by rewrite He in Hup. }
  destruct (bound_Close_with_children_done s1' (rctx r) None
              (ctxtree.add_child child p) Hwf1' Hpar1 Hpopen)
    as (s2 & Hs2 & Hd2 & _).
  { intros ch Hin. simpl in Hin. apply elem_of_app in Hin as [Hin|Hin].
    - unfold s1'. rewrite (mark_done_Done child err c0 s1 ch Hc').
      apply Done_std_cancel_mono. apply Hold. by apply Hall.
    - apply list_elem_of_singleton in Hin as ->. exact Hchild. }
  exists s2. split; [exact Hs2|]. split; [|split].
  - eapply bound_Close_fuel_Done_mono; [exact Hs2|exact Hchild].
  - exact Hd2.
  - by apply bound_Close_fuel_frame in Hs2 as (_ & -> & _).
Qed.

Lemma downstream_Close_closes_idle_upstream_witness :
  exists s2,
    reader_Close {| rctx := 1; rch := 1 |} (Some (Failure "boom"))
      (state_of (NewDownstream ex_reader ex_two_written)) = Some s2 /\
    ctxtree.Done s2 1 = true /\ ctxtree.Done s2 0 = true /\
    chans s2 = chans (state_of (NewDownstream ex_reader ex_two_written)).
Proof.
  apply (downstream_Close_closes_idle_upstream ex_reader
           {| rctx := 1; rch := 1 |} {| wctx := 1; wch := 1 |}
           (Some (Failure "boom")) ex_two_written
           (state_of (NewDownstream ex_reader ex_two_written))
           {| goContext := 0; cancel := stdCancel 0; children := [];
              config := initial_config; cause := None |}).
  - apply (wf_with_chans _ ex_stream), wf_ex_stream.
  - reflexivity.
  - intros ch Hch. by apply elem_of_nil in Hch.
  - reflexivity.
Defined.

(** ** Backpressure *)

Section backpressure.
Implicit Types (s : state) (w : writer) (c : chan).

Lemma Write_under_blocks_when_full env pick i w x rest s c :
  keeps_chan (wch w) env -> keeps_open (wctx w) env ->
  chans s !! wch w = Some c -> closed c = false -> has_room c = false ->
  ctxtree.Done s (wctx w) = false ->
  Write_under env pick i w (x :: rest) s
  = Blocks (env (2 * i + 1)%nat (env (2 * i)%nat s)).
Proof.
  intros Hch Hopen Hc Hcl Hroom Hd. cbn [Write_under]. unfold write_under.
  rewrite (Hopen _ _ Hd).
  rewrite (inner_select_blocks _ w x _ c); [done| |done|done|].
  - by rewrite !Hch.
  - apply Hopen. by apply Hopen.
Qed.

End backpressure.

(** X11.  Backpressure: a [Write] of more items than the buffer has room
    for enqueues, in order, exactly the items that fit and then parks on
    the next one; nothing is dropped and nothing overflows. *)
Theorem Write_parks_when_buffer_is_full
    (env : nat -> state -> state) (pick : nat -> bool)
    (w : writer) (fit : list T) (x : T) (rest : list T) (s : state) (c : chan) :
  keeps_chan (wch w) env -> keeps_open (wctx w) env ->
  chans s !! wch w = Some c -> closed c = false ->
  ctxtree.Done s (wctx w) = false ->
  Z.of_nat (length (buf c)) + Z.of_nat (length fit) = cap c ->
  exists s',
    Write_under env pick 0 w (fit ++ x :: rest) s = Blocks s' /\
    chans s' !! wch w = Some (set_buf (buf c ++ fit) c) /\
    ctxtree.Done s' (wctx w) = false.
Proof.
  intros Hch Hopen Hc Hcl Hd Hcap.
  destruct (Write_under_enqueues_all env pick w fit Hch Hopen 0 s c Hc Hcl Hd)
    as (s1 & HW & Hbuf & Hd1); [lia|].
  rewrite Write_under_app, HW.
  rewrite (Write_under_blocks_when_full env pick _ w x rest s1 _ Hch Hopen Hbuf);
    [|done| |done].
  - eexists. split; [reflexivity|]. split; [by rewrite !Hch|].
    apply Hopen. by apply Hopen.
  - unfold has_room. simpl. apply Z.ltb_ge. rewrite length_app. lia.
Qed.

Lemma Write_parks_when_buffer_is_full_witness :
  exists s',
    Write ex_writer (repeat (IntVal 7) 998 ++ IntVal 8 :: [IntVal 9]) ex_two_written
    = Blocks s' /\
    chans s' !! 0%nat
    = Some (set_buf ([IntVal 1; IntVal 2] ++ repeat (IntVal 7) 998)
              (mkChan [IntVal 1; IntVal 2] 1000 false)) /\
    ctxtree.Done s' 0 = false.
Proof.
  apply (Write_parks_when_buffer_is_full (fun _ s => s) (fun _ => true) ex_writer
           (repeat (IntVal 7) 998) (IntVal 8) [IntVal 9] ex_two_written
           (mkChan [IntVal 1; IntVal 2] 1000 false)).
  - intros j t. reflexivity.
  - intros j t H. exact H.
  - reflexivity.
  - reflexivity.
  - reflexivity.
  - vm_compute. reflexivity.
Defined.

(** X12.  A [write] parked on a full buffer goes through as soon as a
    receive has freed a slot, and order is kept: the drainer has received
    the oldest item and the new one is last in the buffer.  (The buffer
    holds no more than its capacity, as in every reachable store.) *)
Theorem parked_write_resumes_after_receive
    (pick : bool) (r : reader) (w : writer) (x y : T) (l : list T)
    (s : state) (c : chan) :
  rch r = wch w ->
  chans s !! wch w = Some c -> closed c = false -> has_room c = false ->
  Z.of_nat (length (buf c)) <= cap c ->
  buf c = y :: l -> ctxtree.Done s (wctx w) = false ->
  inner_select pick w x s = Blocks s /\
  exists s1 s2,
    chan_recv (Read r) s = Returns (Some y) s1 /\
    inner_select pick w x s1 = Returns None s2 /\
    chans s2 !! wch w = Some (set_buf (l ++ [x]) c).
Proof.
  intros Hr Hc Hcl Hroom Hbound Hbuf Hd.
  split; [by apply (inner_select_blocks pick w x s c)|].
  unfold Read, chan_recv. rewrite Hr, Hc, Hbuf.
  assert (Hlt : (wch w < length (chans s))%nat) by by eapply lookup_lt_Some.
  eexists _, _. split; [reflexivity|].
  assert (Hroom' : has_room (dequeue c) = true).
  { unfold has_room. apply Z.ltb_lt. simpl. rewrite Hbuf in *.
    simpl in Hbound. simpl. lia. }
  rewrite (inner_select_sends pick w x _ (dequeue c)); [|..].
  - split; [reflexivity|]. simpl.
    rewrite list_lookup_insert_eq by (rewrite length_insert; done).
    unfold enqueue, dequeue, set_buf. simpl. by rewrite Hbuf.
  - simpl. by apply list_lookup_insert_eq.
  - done.
  - done.
  - done.
Qed.

Lemma parked_write_resumes_after_receive_witness :
  inner_select true ex_writer (IntVal 5) ex_full = Blocks ex_full /\
  exists s1 s2,
    chan_recv (Read ex_reader) ex_full = Returns (Some (IntVal 0)) s1 /\
    inner_select true ex_writer (IntVal 5) s1 = Returns None s2 /\
    chans s2 !! 0%nat
    = Some (set_buf (repeat (IntVal 0) 999 ++ [IntVal 5])
              (mkChan (repeat (IntVal 0) 1000) 1000 false)).
Proof.
  apply (parked_write_resumes_after_receive true ex_reader ex_writer (IntVal 5)
           (IntVal 0) (repeat (IntVal 0) 999) ex_full
           (mkChan (repeat (IntVal 0) 1000) 1000 false)).
  - reflexivity.
  - reflexivity.
  - reflexivity.
  - vm_compute. reflexivity.
  - vm_compute. discriminate.
  - reflexivity.
  - reflexivity.
Defined.

(** X13.  After the channel has been closed (by [writer.Close]), a [Write]
    of one or more items panics on the send when the context is still
    open; when the context is done the fail-fast check comes first and the
    [Write] returns the context's [Err()] instead - nil when the close was
    graceful, as for [stream.Empty].  Either way nothing is enqueued. *)
Theorem Write_on_closed_channel
    (w : writer) (y : T) (items : list T) (s : state) (c : chan) :
  chans s !! wch w = Some c -> closed c = true ->
  (ctxtree.Done s (wctx w) = false -> Write w (y :: items) s = Panics s) /\
  (ctxtree.Done s (wctx w) = true ->
   Write w (y :: items) s = Returns (bound.Err s (wctx w)) s).
Proof.
  intros Hc Hcl. split.
  - intros Hd. unfold Write. cbn [Write_under]. unfold write_under.
    rewrite Hd. unfold inner_select, send_ready, chan_send.
    by rewrite Hc, Hcl, Hd.
  - intros Hd. by apply Write_on_done_returns_Err.
Qed.

Lemma Write_on_closed_channel_witness :
  Write ex_writer [IntVal 1]
    (state_of (writer_Close ex_writer None ex_fork_stream))
  = Panics (state_of (writer_Close ex_writer None ex_fork_stream)) /\
  Write ex_writer [IntVal 1] Empty = Returns None Empty.
Proof.
  split.
  - apply (Write_on_closed_channel ex_writer (IntVal 1) []
             (state_of (writer_Close ex_writer None ex_fork_stream))
             (mkChan [] 1000 true)); reflexivity.
  - apply (Write_on_closed_channel ex_writer (IntVal 1) [] Empty
             (mkChan [] 1000 true)); reflexivity.
Defined.

(** Run alone, [Write] does not depend on the position it starts counting
    from. *)
Lemma Write_alone_index w ys : forall i j s,
  Write_under (fun _ s => s) (fun _ => true) i w ys s
  = Write_under (fun _ s => s) (fun _ => true) j w ys s.
Proof.
  induction ys as [|y ys IH]; intros i j s; [done|]. cbn [Write_under].
  destruct (write_under _ _ w y s) as [[e|] s2|s2|s2]; try done; apply IH.
Qed.

(** X14.  One [Write] of a list is the same as one [Write] per piece, as
    long as each piece is accepted: [Write(xs ++ ys)] is [Write(xs)] and,
    if that returned nil, [Write(ys)]; the first failure, panic or parking
    ends the call. *)
Theorem Write_of_concatenation (w : writer) (xs ys : list T) (s : state) :
  Write w (xs ++ ys) s =
  match Write w xs s with
  | Returns None s1 => Write w ys s1
  | o => o
  end.
Proof.
  unfold Write. rewrite Write_under_app.
  destruct (Write_under _ _ 0 w xs s) as [[e|] s1|s1|s1]; try done.
  apply Write_alone_index.
Qed.

(** X15.  [Writable()] is the channel itself: a send on it skips the
    fail-fast check of [Write].  With room in an open buffer the item is
    enqueued, and then delivered by [Read], even when the context is done
    with a cause and every [Write] fails. *)
Theorem Writable_send_ignores_context
    (r : reader) (w : writer) (x : T) (s : state) (c : chan) (e : error) :
  rch r = wch w ->
  chans s !! wch w = Some c -> closed c = false -> has_room c = true ->
  bound.Err s (wctx w) = Some e ->
  Write w [x] s = Returns (Some e) s /\
  exists s' s'',
    chan_send (Writable w) x s = Returns tt s' /\
    chans s' !! wch w = Some (set_buf (buf c ++ [x]) c) /\
    drain (S (length (buf c))) (Read r) s' = (buf c ++ [x], s'').
Proof.
  intros Hr Hc Hcl Hroom He. split; [by apply Write_on_done|].
  unfold Writable, chan_send. rewrite Hc, Hcl, Hroom.
  assert (Hk : chans (with_chans (<[wch w := enqueue x c]> (chans s)) s) !! wch w
               = Some (enqueue x c)).
  { simpl. apply list_lookup_insert_eq. by eapply lookup_lt_Some. }
  destruct (drain_buffer (wch w) (S (length (buf c))) _ _ Hk) as (s'' & Hdr & _).
  { simpl. rewrite length_app. simpl. lia. }
  eexists _, s''. split; [reflexivity|]. split; [exact Hk|].
  unfold Read. rewrite Hr. exact Hdr.
Qed.

Lemma Writable_send_ignores_context_witness :
  Write ex_writer [IntVal 3] ex_closed_with_items
  = Returns (Some Canceled) ex_closed_with_items /\
  exists s' s'',
    chan_send (Writable ex_writer) (IntVal 3) ex_closed_with_items = Returns tt s' /\
    chans s' !! 0%nat
    = Some (set_buf ([IntVal 1; IntVal 2] ++ [IntVal 3])
              (mkChan [IntVal 1; IntVal 2] 1000 false)) /\
    drain 3 (Read ex_reader) s' = ([IntVal 1; IntVal 2] ++ [IntVal 3], s'').
Proof.
  apply (Writable_send_ignores_context ex_reader ex_writer (IntVal 3)
           ex_closed_with_items (mkChan [IntVal 1; IntVal 2] 1000 false) Canceled);
    reflexivity.
Defined.

(** X16.  [stream.Empty], on whatever store it is built: receiving from
    its reader never parks and never delivers - it gives the closed-channel
    signal at once and leaves the store as it is - and its [Done] has
    fired; closed with nil, its [Err()] is nil: a graceful close. *)
Theorem Empty_is_closed_and_drained (s s' : state) (r : reader) :
  make_Empty s = Returns r s' ->
  chan_recv (Read r) s' = Returns None s' /\
  (forall n, drain n (Read r) s' = ([], s')) /\
  reader_Done r s' = true /\
  bound.Err s' (rctx r) = None.
Proof.
  unfold make_Empty, ctxtree.New, ctxtree.FromStdContext. cbn [std.WithCancel].
  set (root := {| goContext := length (stds s); cancel := stdCancel (length (stds s));
                  children := []; config := DefaultConfig s; cause := None |}).
  set (k0 := {| std.parent := None; std.err := std.Err (stds s) None;
                std.deadline := std.Deadline (stds s) None |}).
  set (s1 := {| now := now s; stds := stds s ++ [k0]; nodes := nodes s ++ [root];
                chans := chans s; DefaultConfig := DefaultConfig s |}).
  assert (Hroot : nodes s1 !! length (nodes s) = Some root).
  { simpl. rewrite lookup_app_r by lia. by rewrite Nat.sub_diag. }
  assert (Hk0 : stds s1 !! length (stds s) = Some k0).
  { simpl. rewrite lookup_app_r by lia. by rewrite Nat.sub_diag. }
  set (k := mkChan [] (BufferSize (DefaultConfig s)) false).
  assert (Hch : (chans s ++ [k]) !! length (chans s) = Some k).
  { rewrite lookup_app_r by lia. by rewrite Nat.sub_diag. }
  unfold New, ctxtree.GetConfig. rewrite Hroot.
  cbn [fmap option_fmap option_map config root].
  destruct (makechan_in_range (BufferSize (DefaultConfig s))); [|done].
  change (chans s1) with (chans s). fold k.
  set (s2 := with_chans (chans s ++ [k]) s1).
  assert (Hopen : ctxtree.Done s2 (length (nodes s)) = false).
  { unfold ctxtree.Done. change (nodes s2) with (nodes s1). rewrite Hroot.
    unfold std.Done. cbn [goContext root]. change (stds s2) with (stds s1).
    by rewrite Hk0. }
  unfold writer_Close, bound.Close. cbn [wctx wch bound.Close_fuel].
  change (nodes s2) with (nodes s1). rewrite Hroot, Hopen.
  change (ctxtree.all_done s2 (children root)) with true.
  cbn [cancel root].
  set (s3 := bound.mark_done (length (nodes s)) None root s2).
  unfold chan_close. change (chans s3) with (chans s ++ [k]). rewrite Hch.
  cbn [closed k]. intros [= <- <-].
  set (s4 := with_chans (<[length (chans s) := mark_closed k]> (chans s ++ [k])) s3).
  assert (Hrecv : chan_recv (length (chans s)) s4 = Returns None s4).
  { unfold chan_recv.
    change (chans s4) with (<[length (chans s) := mark_closed k]> (chans s ++ [k])).
    rewrite list_lookup_insert_eq by (by eapply lookup_lt_Some). done. }
  cbn [Read rch rctx].
  split; [exact Hrecv|]. split.
  { intros n. destruct n; [done|]. cbn [drain]. by rewrite Hrecv. }
  assert (He : ctxtree.Err s4 (length (nodes s)) = Some Canceled).
  { change (ctxtree.Err s3 (length (nodes s)) = Some Canceled). unfold s3.
    rewrite (Err_same_shape (std_cancel (goContext root) s2)); [|done|].
    2:{ simpl. by apply same_shape_set_cause. }
    unfold ctxtree.Err. cbn [std_cancel with_stds nodes stds].
    change (nodes s2) with (nodes s1). rewrite Hroot. cbn [goContext root].
    apply (cancel_self_Err _ _ _ k0); [exact Hk0|done]. }
  split.
  - unfold reader_Done. cbn [rctx]. apply Done_Err. by rewrite He.
  - unfold bound.Err. rewrite He.
    assert (Hn4 : nodes s4 !! length (nodes s) = Some (bound.set_cause None root)).
    { change (nodes s4) with (<[length (nodes s) := bound.set_cause None root]>
                                (nodes s1)).
      apply list_lookup_insert_eq. by eapply lookup_lt_Some. }
    by rewrite Hn4.
Qed.

Lemma Empty_is_closed_and_drained_witness :
  chan_recv (Read ex_reader) Empty = Returns None Empty /\
  (forall n, drain n (Read ex_reader) Empty = ([], Empty)) /\
  reader_Done ex_reader Empty = true /\
  bound.Err Empty (rctx ex_reader) = None.
Proof.
  apply (Empty_is_closed_and_drained empty_state Empty ex_reader). reflexivity.
Defined.

(** ** Deadlines of the client's context *)

Section deadlines.
Implicit Types (cs : list std.ctx) (s : state).

Lemma deadlines_same_shape cs cs' :
  (forall i, (fun c => (std.parent c, std.deadline c)) <$> cs' !! i
             = (fun c => (std.parent c, std.deadline c)) <$> cs !! i) ->
  deadlines_inherited cs -> deadlines_inherited cs'.
Proof.
  intros Hsame H i c p cp dp Hc Hp Hcp Hdp.
  pose proof (Hsame i) as Hi. pose proof (Hsame p) as Hpp.
  rewrite Hc in Hi. rewrite Hcp in Hpp.
  destruct (cs !! i) as [c0|] eqn:E0; [|done].
  destruct (cs !! p) as [cp0|] eqn:Ep0; [|done].
  simpl in Hi, Hpp. injection Hi as Hi1 Hi2. injection Hpp as Hp1 Hp2.
  destruct (H i c0 p cp0 dp E0) as (d & Hd & Hle); [congruence|done|congruence|].
  exists d. split; [congruence|done].
Qed.

Lemma deadlines_cancel e a cs :
  deadlines_inherited cs -> deadlines_inherited (std.cancel e a cs).
Proof.
  apply deadlines_same_shape. intros i. rewrite cancel_lookup.
  destruct (cs !! i) as [c|]; simpl; [|done]. by destruct (_ && _).
Qed.

Lemma deadlines_expire now cs :
  deadlines_inherited cs -> deadlines_inherited (std.expire now cs).
Proof.
  apply deadlines_same_shape. intros i. unfold std.expire.
  rewrite list_lookup_fmap. destruct (cs !! i) as [c|]; simpl; [|done].
  destruct (std.deadline c) eqn:E; [|by rewrite E].
  destruct (_ && _); simpl; by rewrite ?E.
Qed.

Lemma deadlines_snoc cs k :
  wf_std cs -> deadlines_inherited cs ->
  (forall p cp dp, std.parent k = Some p -> (cs ++ [k]) !! p = Some cp ->
                   std.deadline cp = Some dp ->
                   exists d, std.deadline k = Some d /\ d <= dp) ->
  deadlines_inherited (cs ++ [k]).
Proof.
  intros Hwf H Hk i c p cp dp Hc Hp Hcp Hdp.
  destruct (decide (i < length cs)%nat) as [Hlt|Hge].
  - rewrite lookup_app_l in Hc by done.
    pose proof (Hwf i c p Hc Hp) as Hpi.
    rewrite lookup_app_l in Hcp by lia. by eapply H.
  - rewrite lookup_app_r in Hc by lia.
    destruct (i - length cs)%nat; simpl in Hc; [|by rewrite lookup_nil in Hc].
    injection Hc as <-. by eapply Hk.
Qed.

Lemma deadlines_WithCancel r cs :
  wf_std cs -> deadlines_inherited cs ->
  deadlines_inherited (snd (std.WithCancel r cs)).
Proof.
  intros Hwf H. apply deadlines_snoc; [done|done|]. simpl.
  intros p cp dp -> Hcp Hdp.
  destruct (decide (p < length cs)%nat) as [Hlt|Hge].
  - rewrite lookup_app_l in Hcp by done. unfold std.Deadline. rewrite Hcp.
    exists dp. split; [done|lia].
  - rewrite lookup_app_r in Hcp by lia.
    destruct (p - length cs)%nat; simpl in Hcp; [|by rewrite lookup_nil in Hcp].
    injection Hcp as <-. simpl in Hdp. exists dp. split; [done|lia].
Qed.

Lemma deadlines_WithDeadline now r d cs :
  wf_std cs -> deadlines_inherited cs ->
  deadlines_inherited (snd (std.WithDeadline now r d cs)).
Proof.
  intros Hwf H. apply deadlines_snoc; [done|done|]. simpl.
  intros p cp dp -> Hcp Hdp. eexists. split; [reflexivity|].
  destruct (decide (p < length cs)%nat) as [Hlt|Hge].
  - rewrite lookup_app_l in Hcp by done. unfold std.Deadline.
    rewrite Hcp, Hdp. simpl. lia.
  - rewrite lookup_app_r in Hcp by lia.
    destruct (p - length cs)%nat; simpl in Hcp; [|by rewrite lookup_nil in Hcp].
    injection Hcp as <-. simpl in Hdp. injection Hdp as <-. apply Z.le_refl.
Qed.

Lemma deadlines_same_stds {A} (o : outcome A) s :
  stds (state_of o) = stds s ->
  deadlines_inherited (stds s) -> deadlines_inherited (stds (state_of o)).
Proof. by intros ->. Qed.

Lemma Close_fuel_deadlines fuel n s s' :
  ctxtree.Close_fuel fuel n s = Some s' ->
  deadlines_inherited (stds s) -> deadlines_inherited (stds s').
Proof.
  revert n s. induction fuel as [|f IH]; intros n s; simpl; [done|].
  destruct (nodes s !! n) as [c|]; [|done].
  destruct (ctxtree.all_done s (children c)).
  - destruct (cancel c) as [k|k p].
    + intros [= <-]. apply deadlines_cancel.
    + intros H Hd. eapply IH; [exact H|]. simpl. by apply deadlines_cancel.
  - by intros [= <-].
Qed.

Lemma bound_Close_fuel_deadlines fuel n why s s' :
  bound.Close_fuel fuel n why s = Some s' ->
  deadlines_inherited (stds s) -> deadlines_inherited (stds s').
Proof.
  revert n why s. induction fuel as [|f IH]; intros n why s; simpl; [done|].
  destruct (nodes s !! n) as [c|]; [|done].
  destruct (ctxtree.Done s n); [by intros [= <-]|].
  destruct (ctxtree.all_done s (children c)); [|by intros [= <-]].
  destruct (cancel c) as [k|k p].
  - intros [= <-]. apply deadlines_cancel.
  - intros H Hd. eapply IH; [exact H|]. simpl. by apply deadlines_cancel.
Qed.

Lemma deadlines_perform a s :
  wf s -> deadlines_inherited (stds s) -> deadlines_inherited (stds (perform a s)).
Proof.
  intros [Hwf _] H. destruct a; cbn [perform].
  - destruct (valid_ref r s); [|done]. by apply deadlines_WithCancel.
  - destruct (valid_ref r s); [|done]. by apply deadlines_WithDeadline.
  - by apply deadlines_cancel.
  - by apply deadlines_expire.
  - destruct (valid_ref r s); [|done]. by apply deadlines_WithCancel.
  - unfold after_NewChild, ctxtree.NewChild.
    destruct (nodes s !! parent) as [p|]; [|done].
    by apply (deadlines_WithCancel (Some (goContext p))).
  - unfold after_Close. destruct (ctxtree.Close n s) as [s'|] eqn:E; [|done].
    by eapply Close_fuel_deadlines.
  - apply (deadlines_same_stds _ s); [apply stream_New_frame|done].
  - apply (deadlines_same_stds _ s); [apply Write_frame|done].
  - apply (deadlines_same_stds _ s); [apply chan_recv_frame|done].
  - unfold writer_Close. destruct (bound.Close (wctx w) err s) as [s'|] eqn:E.
    + destruct (chan_close_frame (wch w) s') as [-> _].
      by eapply bound_Close_fuel_deadlines.
    + destruct (chan_close_frame (wch w) s) as [Hs _].
      by destruct (chan_close (wch w) s); simpl in *; rewrite Hs.
  - unfold reader_Close.
    destruct (bound.Close (rctx r) err s) as [s'|] eqn:E; [|done].
    by eapply bound_Close_fuel_deadlines.
  - done.
Qed.

Lemma deadlines_reachable l :
  deadlines_inherited (stds (run l empty_state)).
Proof.
  assert (H : forall s, wf s -> deadlines_inherited (stds s) ->
                        deadlines_inherited (stds (run l s))).
  { induction l as [|a l IH]; intros s Hwf Hd; [done|]. simpl.
    apply IH; [by apply wf_perform|by apply deadlines_perform]. }
  apply H; [apply wf_empty|]. intros i c p cp dp Hc. simpl in Hc.
  by rewrite lookup_nil in Hc.
Qed.

Lemma derives_inv_lookup cs a i ka :
  cs !! a = Some ka -> derives cs a i -> exists ci, cs !! i = Some ci.
Proof. intros Ha. destruct 1 as [|i c p Hc _ _]; by eauto. Qed.

(** Whatever derives from a context with a deadline has an earlier or equal
    one. *)
Lemma derives_deadline cs a i ka da :
  deadlines_inherited cs -> cs !! a = Some ka -> std.deadline ka = Some da ->
  derives cs a i ->
  forall ci, cs !! i = Some ci -> exists d, std.deadline ci = Some d /\ d <= da.
Proof.
  intros H Ha Hda. induction 1 as [|i c p Hc Hp Hd IH]; intros ci Hci.
  - assert (ci = ka) as -> by congruence. exists da. split; [done|lia].
  - assert (ci = c) as -> by congruence.
    destruct (derives_inv_lookup cs a p ka Ha Hd) as [cp Hcp].
    destruct (IH cp Hcp) as (dp & Hdp & Hle).
    destruct (H i c p cp dp Hc Hp Hcp Hdp) as (d & Hdd & Hle').
    exists d. split; [done|lia].
Qed.

End deadlines.

(** X17.  context.go arms no timer of its own, but a deadline of the
    standard context a root was built from reaches the whole tree: once it
    has passed, the root and every node derived from it by [NewChild] are
    done; a node that was still open reports [DeadlineExceeded], and a
    [write] parked on its full buffer returns that error. *)
Theorem client_deadline_closes_the_tree
    (s : state) (a n : nat) (ca : context) (ka : std.ctx) (da e : Z) (f : nat) :
  wf s -> deadlines_inherited (stds s) ->
  nodes s !! a = Some ca -> stds s !! goContext ca = Some ka ->
  std.deadline ka = Some da ->
  (n < length (nodes s))%nat -> node_descends f (nodes s) a n = true ->
  da <= now s + e ->
  ctxtree.Done (elapse e s) n = true /\
  (ctxtree.Done s n = false ->
   ctxtree.Err (elapse e s) n = Some DeadlineExceeded /\
   forall w pick x c,
     wctx w = n -> chans s !! wch w = Some c -> closed c = false ->
     has_room c = false ->
     inner_select pick w x s = Blocks s /\
     inner_select pick w x (elapse e s)
     = Returns (Some DeadlineExceeded) (elapse e s)).
Proof.
  intros Hwf Hdl Ha Hka Hda Hn Hdesc Hle.
  destruct (lookup_lt_is_Some_2 _ _ Hn) as [cn Hcn].
  pose proof (node_descends_derives s f a n ca cn Hwf Ha Hcn Hdesc) as Hder.
  destruct Hwf as [Hs Hnodes]. destruct (Hnodes n cn Hcn) as [Hlen _].
  destruct (lookup_lt_is_Some_2 _ _ Hlen) as [kn Hkn].
  destruct (derives_deadline _ _ _ ka da Hdl Hka Hda Hder kn Hkn) as (dn & Hdn & Hdle).
  assert (Hexp : std.expire (now s + e) (stds s) !! goContext cn
                 = Some (if std.is_done kn then kn
                         else std.set_err DeadlineExceeded kn)).
  { unfold std.expire. rewrite list_lookup_fmap, Hkn. simpl. rewrite Hdn.
    assert (Hb : (dn <=? now s + e) = true) by (apply Z.leb_le; lia).
    rewrite Hb. simpl. by destruct (std.is_done kn). }
  assert (HD : ctxtree.Done (elapse e s) n = true).
  { unfold ctxtree.Done. cbn [elapse nodes stds]. rewrite Hcn.
    unfold std.Done. rewrite Hexp. by destruct (std.is_done kn) eqn:E. }
  split; [exact HD|]. intros Hopen.
  assert (Hkopen : std.is_done kn = false).
  { unfold ctxtree.Done in Hopen. rewrite Hcn in Hopen. unfold std.Done in Hopen.
    by rewrite Hkn in Hopen. }
  assert (HE : ctxtree.Err (elapse e s) n = Some DeadlineExceeded).
  { unfold ctxtree.Err. cbn [elapse nodes stds]. rewrite Hcn.
    unfold std.Err. by rewrite Hexp, Hkopen. }
  split; [exact HE|]. intros w pick x c Hw Hc Hcl Hroom. subst n. split.
  - by apply (inner_select_blocks pick w x s c).
  - unfold inner_select, send_ready. cbn [elapse chans].
    change (chans s !! wch w) with (chans s !! wch w). rewrite Hc, Hcl, Hroom.
    cbn [orb andb]. by rewrite HD, (bound_Err_deadline _ _ HE).
Qed.

Lemma client_deadline_closes_the_tree_witness :
  ctxtree.Done (elapse 10000000 ex_deadline_child) 1 = true /\
  (ctxtree.Done ex_deadline_child 1 = false ->
   ctxtree.Err (elapse 10000000 ex_deadline_child) 1 = Some DeadlineExceeded /\
   forall w pick x c,
     wctx w = 1%nat -> chans ex_deadline_child !! wch w = Some c ->
     closed c = false -> has_room c = false ->
     inner_select pick w x ex_deadline_child = Blocks ex_deadline_child /\
     inner_select pick w x (elapse 10000000 ex_deadline_child)
     = Returns (Some DeadlineExceeded) (elapse 10000000 ex_deadline_child)).
Proof.
  apply (client_deadline_closes_the_tree ex_deadline_child 0 1
           {| goContext := 1; cancel := stdCancel 1; children := [1%nat];
              config := initial_config; cause := None |}
           {| std.parent := Some 0%nat; std.err := None;
              std.deadline := Some 10000000 |} 10000000 10000000 1).
  - apply wf_reachable.
  - apply deadlines_reachable.
  - reflexivity.
  - reflexivity.
  - reflexivity.
  - simpl. lia.
  - reflexivity.
  - simpl. lia.
Defined.

(** ** expectations/matchers *)

Section matchers.
Implicit Types (s : state) (rd : reader) (c : chan).

Lemma chan_recv_head ch s c x l :
  chans s !! ch = Some c -> buf c = x :: l ->
  chan_recv ch s = Returns (Some x) (with_chans (<[ch := dequeue c]> (chans s)) s) /\
  chans (with_chans (<[ch := dequeue c]> (chans s)) s) !! ch = Some (set_buf l c).
Proof.
  intros Hc Hb. unfold chan_recv. rewrite Hc, Hb. split; [done|]. simpl.
  rewrite list_lookup_insert_eq by (by eapply lookup_lt_Some).
  unfold dequeue, set_buf. by rewrite Hb.
Qed.

Lemma Produce_loop_prefix rd items : forall s c rest,
  chans s !! Read rd = Some c -> buf c = (IntVal <$> items) ++ rest ->
  exists s', Produce_loop rd items s = Returns None s' /\
             chans s' !! Read rd = Some (set_buf rest c).
Proof.
  induction items as [|x items IH]; intros s c rest Hc Hb.
  - exists s. split; [done|]. rewrite Hc. simpl in Hb. rewrite <- Hb. by destruct c.
  - cbn [Produce_loop]. simpl in Hb.
    destruct (chan_recv_head _ s c _ _ Hc Hb) as [Hr Hc']. rewrite Hr.
    rewrite decide_True by done.
    destruct (IH _ (set_buf ((IntVal <$> items) ++ rest) c) rest Hc' eq_refl)
      as (s' & HP & Hs'). exists s'. split; [exact HP|]. by rewrite Hs'.
Qed.

Lemma Produce_loop_app rd pre post : forall s c rest,
  chans s !! Read rd = Some c -> buf c = (IntVal <$> pre) ++ rest ->
  exists s', chans s' !! Read rd = Some (set_buf rest c) /\
             Produce_loop rd (pre ++ post) s = Produce_loop rd post s'.
Proof.
  induction pre as [|x pre IH]; intros s c rest Hc Hb.
  - exists s. split; [|done]. rewrite Hc. simpl in Hb. rewrite <- Hb. by destruct c.
  - cbn [Produce_loop app]. simpl in Hb.
    destruct (chan_recv_head _ s c _ _ Hc Hb) as [Hr Hc']. rewrite Hr.
    rewrite decide_True by done.
    destruct (IH _ (set_buf ((IntVal <$> pre) ++ rest) c) rest Hc' eq_refl)
      as (s' & Hs' & HP). exists s'. split; [by rewrite Hs'|exact HP].
Qed.

End matchers.

(** X18.  [Produce(items...)] accepts a producer as soon as the first
    [len(items)] values received from its reader are the items, in order.
    It receives exactly that many: whatever the producer has produced
    beyond them stays in the buffer, unchecked. *)
Theorem Produce_checks_a_prefix_only
    (items : list Z) (producer : Producer) (s s2 : state)
    (rd : reader) (c : chan) (rest : list T) :
  producer (fst (ctxtree.New s)) (snd (ctxtree.New s)) = Returns rd s2 ->
  chans s2 !! Read rd = Some c -> buf c = (IntVal <$> items) ++ rest ->
  exists s',
    Produce items (inr producer) s = Returns None s' /\
    chans s' !! Read rd = Some (set_buf rest c).
Proof.
  intros Hp Hc Hb. unfold Produce.
  destruct (ctxtree.New s) as [ctx s1] eqn:E. simpl in Hp. rewrite Hp.
  by apply Produce_loop_prefix.
Qed.

Lemma Produce_checks_a_prefix_only_witness :
  exists s',
    Produce [1; 2] (inr (ex_producer [IntVal 1; IntVal 2; IntVal 3])) empty_state
    = Returns None s' /\
    chans s' !! 0%nat = Some (set_buf [IntVal 3]
                                (mkChan [IntVal 1; IntVal 2; IntVal 3] 1000 false)).
Proof.
  apply (Produce_checks_a_prefix_only [1; 2]
           (ex_producer [IntVal 1; IntVal 2; IntVal 3]) empty_state
           (state_of (ex_producer [IntVal 1; IntVal 2; IntVal 3] 0%nat ex_root))
           ex_reader (mkChan [IntVal 1; IntVal 2; IntVal 3] 1000 false) [IntVal 3]);
    reflexivity.
Defined.

(** X19.  [Produce] stops at the first received value that differs from the
    expected item and reports both.  On a stream that was closed after
    fewer items than expected, the value received for the first missing
    item is nil, and that is what the error reports; on a stream that is
    short but still open, [Produce] parks. *)
Theorem Produce_reports_first_mismatch
    (rd : reader) (pre : list Z) (x : Z) (post : list Z) (s : state) (c : chan) :
  chans s !! Read rd = Some c ->
  (forall d rest, buf c = (IntVal <$> pre) ++ d :: rest -> d <> IntVal x ->
     exists s',
       Produce_loop rd (pre ++ x :: post) s
       = Returns (Some (Errorf "Expected producer to have produced %v, got %v"
                          [IntVal x; d])) s' /\
       chans s' !! Read rd = Some (set_buf rest c)) /\
  (buf c = IntVal <$> pre -> closed c = true ->
     exists s',
       Produce_loop rd (pre ++ x :: post) s
       = Returns (Some (Errorf "Expected producer to have produced %v, got %v"
                          [IntVal x; NilVal])) s') /\
  (buf c = IntVal <$> pre -> closed c = false ->
     exists s', Produce_loop rd (pre ++ x :: post) s = Blocks s').
Proof.
  intros Hc. split; [|split].
  - intros d rest Hb Hne.
    destruct (Produce_loop_app rd pre (x :: post) s c (d :: rest) Hc Hb)
      as (s1 & Hc1 & ->). cbn [Produce_loop].
    destruct (chan_recv_head _ s1 _ d rest Hc1 eq_refl) as [Hr Hc2]. rewrite Hr.
    rewrite decide_False by done. eexists. split; [reflexivity|].
    rewrite Hc2. by destruct c.
  - intros Hb Hcl. rewrite <- (app_nil_r (IntVal <$> pre)) in Hb.
    destruct (Produce_loop_app rd pre (x :: post) s c [] Hc Hb) as (s1 & Hc1 & ->).
    cbn [Produce_loop]. unfold chan_recv. rewrite Hc1. simpl. rewrite Hcl.
    rewrite decide_False by done. by eexists.
  - intros Hb Hcl. rewrite <- (app_nil_r (IntVal <$> pre)) in Hb.
    destruct (Produce_loop_app rd pre (x :: post) s c [] Hc Hb) as (s1 & Hc1 & ->).
    cbn [Produce_loop]. unfold chan_recv. rewrite Hc1. simpl. rewrite Hcl.
    by eexists.
Qed.

Lemma Produce_reports_first_mismatch_witness :
  (exists s',
     Produce_loop ex_reader ([1] ++ 5 :: [6]) ex_two_written
     = Returns (Some (Errorf "Expected producer to have produced %v, got %v"
                        [IntVal 5; IntVal 2])) s' /\
     chans s' !! Read ex_reader
     = Some (set_buf [] (mkChan [IntVal 1; IntVal 2] 1000 false))) /\
  exists s',
    Produce_loop ex_reader ([] ++ 5 :: [6]) Empty
    = Returns (Some (Errorf "Expected producer to have produced %v, got %v"
                       [IntVal 5; NilVal])) s'.
Proof.
  split.
  - apply (Produce_reports_first_mismatch ex_reader [1] 5 [6] ex_two_written
             (mkChan [IntVal 1; IntVal 2] 1000 false)); [reflexivity|reflexivity|].
    discriminate.
  - apply (Produce_reports_first_mismatch ex_reader [] 5 [6] Empty
             (mkChan [] 1000 true)); reflexivity.
Defined.
